(** * Betting value analysis engine: odds conversion, edge scoring,
      Kelly staking and prop ranking

    Shallow embedding of
      - frontend/src/utils/oddsUtils.js
      - frontend/src/services/oddsService.js
      - frontend/src/services/simulationService.js
      - frontend/src/services/gameService.js (the ranking step and the
        mock prop list)
      - frontend/src/components/baseball/PropBetsList.jsx (colour and
        grouping of the candidates)
      - frontend/src/components/baseball/OddsComparison.jsx (the value
        indicator)

    Numbers.  Two readings of a JavaScript number are used.

    [B64] is the arithmetic of utils/oddsUtils.js as it runs: numbers are
    Rocq's primitive binary64 floats, every operation rounds as IEEE 754
    prescribes, and results overflow to Infinity.  The statements that
    depend on rounding, on overflow or on NaN are made about [B64].

    [num] carries a number at its exact value: a finite value as an exact
    rational, or one of [PInf], [NInf], [NaN].  Every finite binary64 value
    is a rational, so the finite constructor covers every finite input, and
    [double] carries a binary64 value into [num].  The thresholds of the
    ratings, of the best-value cut, of the colours and of the indicator are
    the binary64 numbers that the literals of the source denote, carried by
    [double], so a comparison with one of them in [num] is the comparison
    that the code makes.  Arithmetic in [num] is exact (rounding, overflow
    and the sign of zero are left out); it is used for statements that do
    not depend on them: the order of a sorted list, the shape of a result, a
    value stated as a formula, a bound with room for the rounding.  The
    special values follow ECMAScript (x/0, Infinity - Infinity,
    0 * Infinity, comparisons with NaN, ...). *)

From Stdlib Require Import QArith Qround Qabs Qminmax Lqa Lia ZArith.
From Stdlib Require Import String List Permutation Sorted Bool.
From Stdlib Require Import PrimFloat SpecFloat FloatOps FloatAxioms.
From Stdlib Require Uint63.
Import ListNotations.

Set Warnings "-inexact-float".

Local Open Scope string_scope.
Local Open Scope list_scope.
Local Open Scope Q_scope.

(* ------------------------------------------------------------------ *)
(** ** JavaScript numbers *)

Module JS.

Inductive num : Type :=
| NaN
| PInf
| NInf
| Fin (q : Q).

Definition is_finite (x : num) : bool :=
  match x with Fin _ => true | _ => false end.

(** Sign of a rational as a comparison: [Lt] negative, [Eq] zero, [Gt] positive. *)
Definition sgn (q : Q) : comparison := q ?= 0.

(** [x + y] *)
Definition add (x y : num) : num :=
  match x, y with
  | NaN, _ | _, NaN => NaN
  | PInf, NInf | NInf, PInf => NaN
  | PInf, _ | _, PInf => PInf
  | NInf, _ | _, NInf => NInf
  | Fin a, Fin b => Fin (a + b)
  end.

(** unary [-x] *)
Definition neg (x : num) : num :=
  match x with
  | NaN => NaN
  | PInf => NInf
  | NInf => PInf
  | Fin a => Fin (- a)
  end.

(** [x - y] *)
Definition sub (x y : num) : num := add x (neg y).

(** An infinity of the sign given by a comparison; no sign gives NaN. *)
Definition inf_of (c : comparison) : num :=
  match c with
  | Gt => PInf
  | Lt => NInf
  | Eq => NaN
  end.

Definition flip (c : comparison) : comparison := CompOpp c.

(** [x * y] *)
Definition mul (x y : num) : num :=
  match x, y with
  | NaN, _ | _, NaN => NaN
  | PInf, PInf | NInf, NInf => PInf
  | PInf, NInf | NInf, PInf => NInf
  | PInf, Fin b | Fin b, PInf => inf_of (sgn b)
  | NInf, Fin b | Fin b, NInf => inf_of (flip (sgn b))
  | Fin a, Fin b => Fin (a * b)
  end.

(** [x / y]; a zero divisor is the positive zero. *)
Definition div (x y : num) : num :=
  match x, y with
  | NaN, _ | _, NaN => NaN
  | (PInf | NInf), (PInf | NInf) => NaN
  | PInf, Fin b => match sgn b with Lt => NInf | _ => PInf end
  | NInf, Fin b => match sgn b with Lt => PInf | _ => NInf end
  | Fin _, (PInf | NInf) => Fin 0
  | Fin a, Fin b =>
      if Qeq_bool b 0 then inf_of (sgn a) else Fin (a / b)
  end.

(** [Math.abs] *)
Definition abs (x : num) : num :=
  match x with
  | NaN => NaN
  | PInf | NInf => PInf
  | Fin a => Fin (Qabs a)
  end.

(** [x < y]; false as soon as one side is NaN. *)
Definition lt (x y : num) : bool :=
  match x, y with
  | NaN, _ | _, NaN => false
  | _, NInf => false
  | NInf, _ => true
  | PInf, _ => false
  | _, PInf => true
  | Fin a, Fin b => match a ?= b with Lt => true | _ => false end
  end.

Definition gt (x y : num) : bool := lt y x.

(** [x <= y] *)
Definition le (x y : num) : bool :=
  match x, y with
  | NaN, _ | _, NaN => false
  | NInf, _ => true
  | _, PInf => true
  | _, NInf => false
  | PInf, _ => false
  | Fin a, Fin b => match a ?= b with Gt => false | _ => true end
  end.

Definition ge (x y : num) : bool := le y x.

(** Numeric equality of results: the same special value, or equal rationals. *)
Definition eqv (x y : num) : Prop :=
  match x, y with
  | NaN, NaN | PInf, PInf | NInf, NInf => True
  | Fin a, Fin b => a == b
  | _, _ => False
  end.

(** The number that a binary64 value is: a finite one at its exact value. *)
Definition double (f : float) : num :=
  match Prim2SF f with
  | S754_nan => NaN
  | S754_infinity s => if s then NInf else PInf
  | S754_zero _ => Fin 0
  | S754_finite s m e => Fin (inject_Z (cond_Zopp s (Zpos m)) * 2 ^ e)
  end.

(** The property names that every object inherits from [Object.prototype]. *)
Definition prototypeNames : list string :=
  ["constructor"; "__defineGetter__"; "__defineSetter__"; "hasOwnProperty";
   "__lookupGetter__"; "__lookupSetter__"; "isPrototypeOf";
   "propertyIsEnumerable"; "toString"; "valueOf"; "__proto__";
   "toLocaleString"].

(** What [object[key]] reads from an object literal whose own properties
    are strings: nothing ([undefined]), an own string, or the member of
    [Object.prototype] of that name (a function or an object). *)
Inductive property : Type :=
| Missing
| Own (s : string)
| Prototype (name : string).

(** A call either returns a value or throws an [Error] with a message. *)
Inductive completion (A : Type) : Type :=
| Return (v : A)
| Throw (msg : string).

Arguments Return {A} v.
Arguments Throw {A} msg.

Definition bind {A B} (c : completion A) (k : A -> completion B) : completion B :=
  match c with
  | Return v => k v
  | Throw m => Throw m
  end.

Definition throws {A} (c : completion A) : Prop := exists m, c = Throw m.

(** Calling a function whose body has no [throw] and calls nothing that
    throws: the call completes with the value computed. *)
Definition call {A B} (f : A -> B) (x : A) : completion B := Return (f x).

(** [Array.prototype.sort(cmp)]: the stable sort of ECMAScript, as a stable
    insertion sort.  [cmp a b > 0] puts [b] before [a]; any other result of
    the comparator, NaN included, leaves [a] first. *)
Section Sort.
Context {A : Type} (cmp : A -> A -> num).

Fixpoint insert (x : A) (l : list A) : list A :=
  match l with
  | [] => [x]
  | y :: ys => if gt (cmp x y) (Fin 0) then y :: insert x ys else x :: l
  end.

Fixpoint sort (l : list A) : list A :=
  match l with
  | [] => []
  | x :: xs => insert x (sort xs)
  end.

End Sort.

End JS.

Import JS.
Infix "=~" := eqv (at level 70, no associativity).

(** The number [n / d]: a decimal literal that enters the exact arithmetic
    of the mock generator, or the confidence of a candidate in an example. *)
Definition lit (n : Z) (d : positive) : num := Fin (n # d).

(* ------------------------------------------------------------------ *)
(** ** utils/oddsUtils.js at the exact values *)

(** The conversion that the two services copy, at the exact values; the
    whole file is embedded in binary64 in [B64]. *)
Module OddsUtils.

Definition probability_error : string := "Probability must be between 0 and 1".

Definition americanToImpliedProbability (americanOdds : num) : num :=
  if gt americanOdds (Fin 0) then
    div (Fin 100) (add americanOdds (Fin 100))
  else
    div (abs americanOdds) (add (abs americanOdds) (Fin 100)).

End OddsUtils.

(* ------------------------------------------------------------------ *)
(** ** utils/oddsUtils.js in binary64 *)

Module B64.

Local Open Scope float_scope.

(** The integer [k] as a binary64 value (exact up to 2^53 in magnitude). *)
Definition ofZ (k : Z) : float :=
  if (k <? 0)%Z then - of_uint63 (Uint63.of_Z (- k))
  else of_uint63 (Uint63.of_Z k).

(** [Math.max(x, y)]: NaN when either is NaN, and +0 above -0. *)
Definition Math_max (x y : float) : float :=
  if is_nan x || is_nan y then nan
  else if x <? y then y
  else if y <? x then x
  else if get_sign x then y else x.

(** [Math.round(x)]: the integer nearest to [x], a half going towards
    +Infinity; [x] itself when it is an integer, an infinity or NaN, and -0
    for a negative [x] that rounds to zero.  For [x = n * 2^e] with [e < 0]
    the integer is [floor ((n + 2^(-e-1)) / 2^(-e))]. *)
Definition Math_round (x : float) : float :=
  match Prim2SF x with
  | S754_finite s m e =>
      if (0 <=? e)%Z then x
      else
        let k := Z.shiftr (cond_Zopp s (Zpos m) + 2 ^ (- e - 1)) (- e) in
        if (k =? 0)%Z then (if s then neg_zero else zero) else ofZ k
  | _ => x
  end.

Definition americanToImpliedProbability (americanOdds : float) : float :=
  if 0 <? americanOdds then
    100 / (americanOdds + 100)
  else
    PrimFloat.abs americanOdds / (PrimFloat.abs americanOdds + 100).

Definition impliedProbabilityToAmerican (probability : float) : completion float :=
  if (probability <=? 0) || (1 <=? probability) then
    Throw OddsUtils.probability_error
  else
    let odds :=
      if 0.5 <? probability then
        -100 * probability / (1 - probability)
      else
        100 * (1 - probability) / probability
    in
    Return (Math_round (odds / 5) * 5).

Definition americanToDecimalOdds (americanOdds : float) : float :=
  if 0 <? americanOdds then
    1 + (americanOdds / 100)
  else
    1 + (100 / PrimFloat.abs americanOdds).

Definition calculateExpectedValue (americanOdds impliedProbability : float) : float :=
  let decimalOdds := americanToDecimalOdds americanOdds in
  (decimalOdds - 1) * impliedProbability - (1 - impliedProbability).

Definition calculateKellyStake (probability americanOdds : float) : float :=
  let decimalOdds := americanToDecimalOdds americanOdds in
  let q := 1 - probability in
  let b := decimalOdds - 1 in
  let stake := (b * probability - q) / b in
  Math_max 0 stake.

(** [_calculateEdge] of the simulation service, over its own copy of the
    probability conversion. *)
Definition _oddsToProb (americanOdds : float) : float :=
  if 0 <? americanOdds then
    100 / (americanOdds + 100)
  else
    PrimFloat.abs americanOdds / (PrimFloat.abs americanOdds + 100).

Definition _calculateEdge (marketOdds simulatedOdds : float) : float :=
  let marketProb := _oddsToProb marketOdds in
  let simulatedProb := _oddsToProb simulatedOdds in
  simulatedProb - marketProb.

(** The round trip from the odds side. *)
Definition roundTrip (o : float) : completion float :=
  impliedProbabilityToAmerican (americanToImpliedProbability o).


(** The probability with three decimals [k / 1000], and the one with four
    decimals [k / 10000]. *)
Definition thousandth (k : Z) : float := ofZ k / 1000.

Definition tenThousandth (k : Z) : float := ofZ k / 10000.

(** The integer that an integer-valued binary64 number is (0 for the
    others). *)
Definition toZ (x : float) : Z :=
  match Prim2SF x with
  | S754_finite s m e =>
      if (0 <=? e)%Z then cond_Zopp s (Zpos m) * 2 ^ e
      else Z.shiftr (cond_Zopp s (Zpos m)) (- e)
  | _ => 0%Z
  end.

End B64.

(* ------------------------------------------------------------------ *)
(** ** services/oddsService.js *)

Module OddsService.

(** The odds object handed over by the market or by the simulation; a field
    that is missing reads as [undefined], which these numeric paths turn
    into NaN. *)
Record Odds : Type := mkOdds {
  homeMoneyline : num;
  awayMoneyline : num;
  overOdds : num;
  underOdds : num
}.

(** An argument that may be absent. *)
Inductive arg (A : Type) : Type :=
| Null
| Undefined
| Obj (o : A).

Arguments Null {A}.
Arguments Undefined {A}.
Arguments Obj {A} o.

(** [!x] *)
Definition falsy {A} (x : arg A) : bool :=
  match x with Obj _ => false | _ => true end.

Definition oddsToProb (americanOdds : num) : num :=
  if gt americanOdds (Fin 0) then
    div (Fin 100) (add americanOdds (Fin 100))
  else
    div (abs americanOdds) (add (abs americanOdds) (Fin 100)).

Definition determineValueType (edge : num) : string :=
  if gt edge (double 0.05%float) then "strong_value"
  else if gt edge (double 0.02%float) then "value"
  else if lt edge (double (-0.05)%float) then "poor"
  else if lt edge (double (-0.02)%float) then "below"
  else "fair".

Record BestValue : Type := mkBestValue {
  type : string;
  typeName : property;
  edge : num;
  valueType : string
}.

(** [typeNames[bestType]]: one of the four own names, else what the object
    literal inherits under that key, else [undefined]. *)
Definition typeNames (k : string) : property :=
  if String.eqb k "home" then Own "Home Moneyline"
  else if String.eqb k "away" then Own "Away Moneyline"
  else if String.eqb k "over" then Own "Over Total"
  else if String.eqb k "under" then Own "Under Total"
  else if existsb (String.eqb k) prototypeNames then Prototype k
  else Missing.

(** [edges] is [Object.entries(edges)]: the entries in iteration order.
    [None] is JavaScript's [null]; destructuring [values[0]] of an empty
    array throws. *)
Definition findBestValue (edges : list (string * num))
  : completion (option BestValue) :=
  let values := sort (fun a b => sub (snd b) (snd a)) edges in
  match values with
  | [] => Throw "undefined is not iterable"
  | (bestType, bestEdge) :: _ =>
      if le bestEdge (double 0.02%float) then Return None
      else Return (Some {| type := bestType;
                           typeName := typeNames bestType;
                           edge := bestEdge;
                           valueType := determineValueType bestEdge |})
  end.

Record Assessment : Type := mkAssessment {
  homeValue : string;
  awayValue : string;
  overValue : string;
  underValue : string;
  bestValue : option BestValue
}.

Definition analyzeBettingValue (marketOdds simulatedOdds : arg Odds)
  : completion (option Assessment) :=
  match marketOdds, simulatedOdds with
  | Obj m, Obj s =>
      let marketProbs :=
        (oddsToProb (homeMoneyline m), oddsToProb (awayMoneyline m),
         oddsToProb (overOdds m), oddsToProb (underOdds m)) in
      let simulatedProbs :=
        (oddsToProb (homeMoneyline s), oddsToProb (awayMoneyline s),
         oddsToProb (overOdds s), oddsToProb (underOdds s)) in
      let '(mh, ma, mo, mu) := marketProbs in
      let '(sh, sa, so, su) := simulatedProbs in
      let edges :=
        [("home", sub sh mh); ("away", sub sa ma);
         ("over", sub so mo); ("under", sub su mu)] in
      bind (findBestValue edges) (fun best =>
      Return (Some {| homeValue := determineValueType (sub sh mh);
                      awayValue := determineValueType (sub sa ma);
                      overValue := determineValueType (sub so mo);
                      underValue := determineValueType (sub su mu);
                      bestValue := best |}))
  | _, _ => Return None
  end.

End OddsService.

(* ------------------------------------------------------------------ *)
(** ** services/simulationService.js *)

Module SimulationService.

Import OddsService.

(** The simulation result; [bettingInsights] may be missing. *)
Record Simulation : Type := mkSimulation {
  bettingInsights : arg Odds
}.

Definition _oddsToProb (americanOdds : num) : num :=
  if gt americanOdds (Fin 0) then
    div (Fin 100) (add americanOdds (Fin 100))
  else
    div (abs americanOdds) (add (abs americanOdds) (Fin 100)).

Definition _calculateEdge (marketOdds simulatedOdds : num) : num :=
  let marketProb := _oddsToProb marketOdds in
  let simulatedProb := _oddsToProb simulatedOdds in
  sub simulatedProb marketProb.

Definition _getValueRating (edge : num) : string :=
  if gt edge (double 0.05%float) then "strong"
  else if gt edge (double 0.02%float) then "value"
  else if lt edge (double (-0.05)%float) then "poor"
  else if lt edge (double (-0.02)%float) then "negative"
  else "neutral".

Record Rated : Type := mkRated {
  edge : num;
  rating : string
}.

Record Analysis : Type := mkAnalysis {
  home : Rated;
  away : Rated;
  over : Rated;
  under : Rated
}.

Definition rate (e : num) : Rated := {| edge := e; rating := _getValueRating e |}.

(** Reading a property of a missing [bettingInsights] throws. *)
Definition analyzeValue (simulation : arg Simulation) (marketOdds : arg Odds)
  : completion (option Analysis) :=
  match simulation, marketOdds with
  | Obj sim, Obj m =>
      match bettingInsights sim with
      | Obj simulatedOdds =>
          let homeEdge := _calculateEdge (homeMoneyline m) (homeMoneyline simulatedOdds) in
          let awayEdge := _calculateEdge (awayMoneyline m) (awayMoneyline simulatedOdds) in
          let overEdge := _calculateEdge (overOdds m) (overOdds simulatedOdds) in
          let underEdge := _calculateEdge (underOdds m) (underOdds simulatedOdds) in
          Return (Some {| home := rate homeEdge; away := rate awayEdge;
                          over := rate overEdge; under := rate underEdge |})
      | _ => Throw "Cannot read properties of undefined"
      end
  | _, _ => Return None
  end.

End SimulationService.

(* ------------------------------------------------------------------ *)
(** ** services/gameService.js: the ranking step of the prop list *)

Module GameService.

Record PropBet : Type := mkPropBet {
  playerName : string;
  betType : string;
  line : num;
  recommendation : string;
  confidence : num;
  reasoning : string
}.

(** [props.sort((a, b) => b.confidence - a.confidence)], the step that
    orders the list [_generateMockPropBets] returns.  The candidates pushed
    before it depend on [Math.random]; they are the argument here. *)
Definition sortByConfidence (props : list PropBet) : list PropBet :=
  sort (fun a b => sub (confidence b) (confidence a)) props.

End GameService.

(* ------------------------------------------------------------------ *)
(** ** Vocabulary of the statements *)




(** The rational carried by a finite number (0 for the others). *)
Definition valueOf (x : num) : Q :=
  match x with Fin q => q | _ => 0 end.

(** Every number that [key] reads in [l] is finite. *)
Definition finite_keys {A} (key : A -> num) (l : list A) : Prop :=
  Forall (fun x => is_finite (key x) = true) l.

(** [l] is in descending order of [key]. *)
Definition descending {A} (key : A -> num) (l : list A) : Prop :=
  StronglySorted (fun a b => valueOf (key b) <= valueOf (key a)) l.

(** The elements of [l] whose key equals [c], in the order of [l]. *)
Definition with_key {A} (key : A -> num) (c : Q) (l : list A) : list A :=
  filter (fun x => Qeq_bool (valueOf (key x)) c) l.

(** [x], at position [i] of [l], carries the greatest key of [l], and no
    element before it carries that key. *)
Definition first_maximum {A} (key : A -> num) (l : list A) (i : nat) (x : A) : Prop :=
  nth_error l i = Some x /\
  (forall j y, nth_error l j = Some y -> valueOf (key y) <= valueOf (key x)) /\
  (forall j y, (j < i)%nat -> nth_error l j = Some y ->
               valueOf (key y) < valueOf (key x)).

(** A prop candidate with the given player and confidence. *)
Definition candidate (name : string) (c : num) : GameService.PropBet :=
  {| GameService.playerName := name;
     GameService.betType := "hits";
     GameService.line := lit 15 10;
     GameService.recommendation := "over";
     GameService.confidence := c;
     GameService.reasoning := "Based on matchup and recent performance trends" |}.

(* ------------------------------------------------------------------ *)
(** ** Further JavaScript primitives *)

(** [Math.floor] *)
Definition floor (x : num) : num :=
  match x with
  | Fin a => Fin (inject_Z (Qfloor a))
  | _ => x
  end.

(** The number that the string [x.toFixed(f)] denotes when it is read back
    as a number ([parseFloat], or the conversion that [-] and [>] apply to a
    string operand): the multiple of [10^-f] nearest to [x], a half going
    away from zero.  The digits are those of the exact value. *)
Definition toFixedValue (f : nat) (x : num) : num :=
  match x with
  | Fin a =>
      let scale := inject_Z (10 ^ Z.of_nat f) in
      if Qle_bool 0 a
      then Fin (inject_Z (Qfloor (a * scale + (1 # 2))) / scale)
      else Fin (- (inject_Z (Qfloor (- a * scale + (1 # 2))) / scale))
  | _ => x
  end.

(** [Math.random()]: a draw is a fraction [n / (n + d)], which ranges over
    the rationals of the interval from 0 (included) to 1 (excluded). *)
Definition Draw : Type := (N * positive)%type.

Definition drawValue (d : Draw) : Q :=
  match fst d with
  | N0 => 0 # snd d
  | Npos n => Zpos n # (n + snd d)
  end.

(** The number of turns of [for (let i = 0; i < bound; i++)]. *)
Definition iterations (bound : num) : nat :=
  match bound with
  | Fin q => Z.to_nat (Qceiling q)
  | _ => 0%nat
  end.

(** [array[index]] on an array of strings, for an index within the array;
    the empty string stands for the [undefined] read elsewhere. *)
Definition element (array : list string) (index : num) : string :=
  match index with
  | Fin q => nth (Z.to_nat (Qfloor q)) array ""
  | _ => ""
  end.

(* ------------------------------------------------------------------ *)
(** ** services/gameService.js: the mock prop list *)

Module MockProps.

Import GameService.

Record Player : Type := mkPlayer {
  name : string;
  team : string
}.

Definition propTypes : list string :=
  ["strikeouts"; "home_run"; "hits"; "runs_batted_in"; "total_bases"].

Definition players (homeTeam awayTeam : string) : list Player :=
  [ {| name := "Player 1"; team := homeTeam |};
    {| name := "Player 2"; team := homeTeam |};
    {| name := "Player 3"; team := awayTeam |};
    {| name := "Player 4"; team := awayTeam |} ].

Section Generator.

(** The successive results of [Math.random()]; the state threaded through
    the generator is the number of draws made so far. *)
Variable rand : nat -> Draw.

Definition random (i : nat) : num * nat := (Fin (drawValue (rand i)), S i).

(** One turn of the inner loop: the candidate pushed, and the draws used. *)
Definition generateProp (player : Player) (i : nat) : PropBet * nat :=
  let (r1, i1) := random i in
  let propType :=
    element propTypes
      (floor (mul r1 (Fin (inject_Z (Z.of_nat (length propTypes)))))) in
  let (line0, i2) :=
    if String.eqb propType "strikeouts" then
      let (r, j) := random i1 in (add (lit 45 10) (mul r (Fin 3)), j)
    else if String.eqb propType "home_run" then (lit 5 10, i1)
    else let (r, j) := random i1 in (add (lit 15 10) r, j) in
  let (r3, i3) := random i2 in
  let overConfidence := add (lit 4 10) (mul r3 (lit 4 10)) in
  let (rec, i4) :=
    if gt overConfidence (lit 6 10) then ("over", i3)
    else if lt overConfidence (lit 4 10) then ("under", i3)
    else let (r, j) := random i3 in
         (if gt r (lit 5 10) then "over" else "under", j) in
  ({| playerName := name player;
      betType := propType;
      line := toFixedValue 1 line0;
      recommendation := rec;
      confidence := if String.eqb rec "over" then overConfidence
                    else sub (Fin 1) overConfidence;
      reasoning := "Based on matchup and recent performance trends" |},
   i4).

(** [n] turns of the inner loop. *)
Fixpoint addProps (n : nat) (player : Player) (i : nat) : list PropBet * nat :=
  match n with
  | O => ([], i)
  | S n' =>
      let (p, j) := generateProp player i in
      let (ps, k) := addProps n' player j in
      (p :: ps, k)
  end.

(** The body of [players.forEach]. *)
Definition forPlayer (player : Player) (i : nat) : list PropBet * nat :=
  let (r, i1) := random i in
  let propsToAdd := add (floor (mul r (Fin 2))) (Fin 1) in
  addProps (iterations propsToAdd) player i1.

Fixpoint forEachPlayer (ps : list Player) (i : nat) : list PropBet * nat :=
  match ps with
  | [] => ([], i)
  | player :: rest =>
      let (props, j) := forPlayer player i in
      let (more, k) := forEachPlayer rest j in
      (props ++ more, k)
  end.

Definition _generateMockPropBets (homeTeam awayTeam : string) (i : nat)
  : list PropBet * nat :=
  let (props, j) := forEachPlayer (players homeTeam awayTeam) i in
  (sortByConfidence props, j).

End Generator.

End MockProps.

(* ------------------------------------------------------------------ *)
(** ** components/baseball/PropBetsList.jsx *)

Module PropBetsList.

Import GameService.

Definition getConfidenceColor (confidence : num) : string :=
  if ge confidence (double 0.75%float) then "text-green-600"
  else if ge confidence (double 0.6%float) then "text-green-500"
  else if ge confidence (double 0.5%float) then "text-blue-500"
  else "text-gray-500".

(** The property names that every object inherits from [Object.prototype];
    reading one of them from [groups] gives a function or an object, never
    [undefined]. *)
Definition prototypeNames : list string := JS.prototypeNames.

Definition inherited (k : string) : bool := existsb (String.eqb k) prototypeNames.

(** The own properties of the [groups] object, in the order in which they
    were created. *)
Definition Groups : Type := list (string * list PropBet).

(** The own property [groups[k]]. *)
Fixpoint own (k : string) (groups : Groups) : option (list PropBet) :=
  match groups with
  | [] => None
  | (k', g) :: rest => if String.eqb k' k then Some g else own k rest
  end.

(** [groups[k].push(bet)] on an own property [k]. *)
Fixpoint push (k : string) (bet : PropBet) (groups : Groups) : Groups :=
  match groups with
  | [] => []
  | (k', g) :: rest =>
      if String.eqb k' k then (k', g ++ [bet]) :: rest
      else (k', g) :: push k bet rest
  end.

(** The reducer.  [bet.betType] is a string here.  When [groups[betType]]
    is an inherited property the test [!groups[betType]] fails and the call
    of [push] on it throws. *)
Definition addToGroup (groups : Groups) (bet : PropBet) : completion Groups :=
  let betType := betType bet in
  match own betType groups with
  | Some _ => Return (push betType bet groups)
  | None =>
      if inherited betType
      then Throw "groups[betType].push is not a function"
      else Return (push betType bet (groups ++ [(betType, [])]))
  end.

(** [propBets.reduce(reducer, {})] *)
Definition groupedPropBets (propBets : list PropBet) : completion Groups :=
  fold_left (fun acc bet => bind acc (fun groups => addToGroup groups bet))
            propBets (Return []).

End PropBetsList.

(* ------------------------------------------------------------------ *)
(** ** components/baseball/OddsComparison.jsx *)

Module OddsComparison.

(** The text and the colour of the indicator (the icon is left out). *)
Record Indicator : Type := mkIndicator {
  text : string;
  color : string
}.

(** The probability as the string with three decimals, carried as the
    number that the string denotes. *)
Definition oddsToProb (americanOdds : num) : num :=
  if gt americanOdds (Fin 0) then
    toFixedValue 3 (div (Fin 100) (add americanOdds (Fin 100)))
  else
    toFixedValue 3 (div (abs americanOdds) (add (abs americanOdds) (Fin 100))).

(** [(simulatedProb - marketProb).toFixed(3)] *)
Definition difference (marketOdds simulatedOdds : num) : num :=
  let marketProb := oddsToProb marketOdds in
  let simulatedProb := oddsToProb simulatedOdds in
  toFixedValue 3 (sub simulatedProb marketProb).

Definition getValueIndicator (marketOdds simulatedOdds : num) : Indicator :=
  let difference := difference marketOdds simulatedOdds in
  if gt difference (double 0.05%float) then
    {| text := "Strong Value"; color := "text-green-600" |}
  else if gt difference (double 0.02%float) then
    {| text := "Value"; color := "text-green-500" |}
  else if lt difference (double (-0.05)%float) then
    {| text := "Poor Value"; color := "text-red-600" |}
  else if lt difference (double (-0.02)%float) then
    {| text := "Below Value"; color := "text-red-500" |}
  else
    {| text := "Fair Value"; color := "text-gray-500" |}.

End OddsComparison.

(** All four prices of an odds object are finite numbers. *)
Definition finite_odds (o : OddsService.Odds) : Prop :=
  is_finite (OddsService.homeMoneyline o) = true /\
  is_finite (OddsService.awayMoneyline o) = true /\
  is_finite (OddsService.overOdds o) = true /\
  is_finite (OddsService.underOdds o) = true.

(** The four edges of a market against a simulation, under the names and in
    the order in which [analyzeBettingValue] builds them. *)
Definition marketEdges (m s : OddsService.Odds) : list (string * num) :=
  [("home", SimulationService._calculateEdge
              (OddsService.homeMoneyline m) (OddsService.homeMoneyline s));
   ("away", SimulationService._calculateEdge
              (OddsService.awayMoneyline m) (OddsService.awayMoneyline s));
   ("over", SimulationService._calculateEdge
              (OddsService.overOdds m) (OddsService.overOdds s));
   ("under", SimulationService._calculateEdge
               (OddsService.underOdds m) (OddsService.underOdds s))].

(** The rating names of the simulation service in the vocabulary of the
    odds service. *)
Definition serviceName (rating : string) : string :=
  if String.eqb rating "strong" then "strong_value"
  else if String.eqb rating "negative" then "below"
  else if String.eqb rating "neutral" then "fair"
  else rating.

(** The rating of the opposite edge, in the names of the simulation
    service. *)
Definition mirror (rating : string) : string :=
  if String.eqb rating "strong" then "poor"
  else if String.eqb rating "poor" then "strong"
  else if String.eqb rating "value" then "negative"
  else if String.eqb rating "negative" then "value"
  else rating.

(** What holds of every candidate that [generateProp] builds. *)
Definition generated (p : GameService.PropBet) : Prop :=
  In (GameService.playerName p) ["Player 1"; "Player 2"; "Player 3"; "Player 4"] /\
  In (GameService.betType p) MockProps.propTypes /\
  (GameService.recommendation p = "over" \/ GameService.recommendation p = "under") /\
  (exists c : Q,
     GameService.confidence p = Fin c /\ 4 # 10 <= c /\ c <= 8 # 10 /\
     (GameService.recommendation p = "under" -> c <= 6 # 10)) /\
  (exists l : Q,
     GameService.line p = Fin l /\
     (GameService.betType p = "home_run" -> l == 5 # 10) /\
     (GameService.betType p = "strikeouts" -> 45 # 10 <= l <= 75 # 10) /\
     (GameService.betType p <> "home_run" ->
      GameService.betType p <> "strikeouts" -> 15 # 10 <= l <= 25 # 10)).

(** The candidates of [l] that belong to the player [n]. *)
Definition of_player (n : string) (l : list GameService.PropBet)
  : list GameService.PropBet :=
  filter (fun p => String.eqb (GameService.playerName p) n) l.

(** The candidates of [l] whose bet type is [k], in the order of [l]. *)
Definition of_type (k : string) (l : list GameService.PropBet)
  : list GameService.PropBet :=
  filter (fun p => String.eqb (GameService.betType p) k) l.

(** No bet type of [l] is a property name inherited from
    [Object.prototype]. *)
Definition plain_types (l : list GameService.PropBet) : Prop :=
  Forall (fun p => PropBetsList.inherited (GameService.betType p) = false) l.

(** The text that the odds comparison shows for a rating of the odds
    service. *)
Definition displayText (rating : string) : string :=
  if String.eqb rating "strong_value" then "Strong Value"
  else if String.eqb rating "value" then "Value"
  else if String.eqb rating "poor" then "Poor Value"
  else if String.eqb rating "below" then "Below Value"
  else "Fair Value".

(** The integers [a], [a + 1], ..., [a + n - 1]. *)
Fixpoint zrange (a : Z) (n : nat) : list Z :=
  match n with
  | O => []
  | S n' => a :: zrange (a + 1) n'
  end.

(** The integers from [a] to [b]. *)
Definition zinterval (a b : Z) : list Z := zrange a (Z.to_nat (b - a + 1)).

(** The prices that are multiples of 5 from 100 to 2000 in magnitude, as
    the integers [j] of [5 * j]. *)
Definition usualPrices : list Z := zinterval (-400) (-20) ++ zinterval 20 400.

(** The exact values of the binary64 thresholds of the source. *)
Definition t005 : Q := Eval vm_compute in valueOf (double 0.05%float).
Definition t002 : Q := Eval vm_compute in valueOf (double 0.02%float).

(* ------------------------------------------------------------------ *)
(** ** Comparisons and arithmetic on finite numbers *)

Section FiniteFacts.

Lemma lt_fin (a b : Q) : lt (Fin a) (Fin b) = true <-> a < b.
Proof.
  unfold lt. rewrite Qlt_alt. destruct (a ?= b); split; congruence.
Qed.

Lemma lt_fin_false (a b : Q) : lt (Fin a) (Fin b) = false <-> b <= a.
Proof.
  rewrite <- Bool.not_true_iff_false, lt_fin. split; intro H.
  - apply Qnot_lt_le, H.
  - apply Qle_not_lt, H.
Qed.

Lemma gt_fin (a b : Q) : gt (Fin a) (Fin b) = true <-> b < a.
Proof. apply lt_fin. Qed.

Lemma gt_fin_false (a b : Q) : gt (Fin a) (Fin b) = false <-> a <= b.
Proof. apply lt_fin_false. Qed.

Lemma le_fin (a b : Q) : le (Fin a) (Fin b) = true <-> a <= b.
Proof.
  unfold le. rewrite Qle_alt. destruct (a ?= b); split; congruence.
Qed.

Lemma le_fin_false (a b : Q) : le (Fin a) (Fin b) = false <-> b < a.
Proof.
  rewrite <- Bool.not_true_iff_false, le_fin. split; intro H.
  - apply Qnot_le_lt, H.
  - apply Qlt_not_le, H.
Qed.

Lemma ge_fin (a b : Q) : ge (Fin a) (Fin b) = true <-> b <= a.
Proof. apply le_fin. Qed.

Lemma ge_fin_false (a b : Q) : ge (Fin a) (Fin b) = false <-> a < b.
Proof. apply le_fin_false. Qed.

(** The boolean test and the order agree, in the form used to split cases. *)
Lemma gt_fin_case (a b : Q) :
  (b < a /\ gt (Fin a) (Fin b) = true) \/ (a <= b /\ gt (Fin a) (Fin b) = false).
Proof.
  destruct (Qlt_le_dec b a) as [H | H]; [left | right]; split; auto.
  - now apply gt_fin.
  - now apply gt_fin_false.
Qed.

Lemma lt_fin_case (a b : Q) :
  (a < b /\ lt (Fin a) (Fin b) = true) \/ (b <= a /\ lt (Fin a) (Fin b) = false).
Proof. apply (gt_fin_case b a). Qed.

Lemma le_fin_case (a b : Q) :
  (a <= b /\ le (Fin a) (Fin b) = true) \/ (b < a /\ le (Fin a) (Fin b) = false).
Proof.
  destruct (Qlt_le_dec b a) as [H | H]; [right | left]; split; auto.
  - now apply le_fin_false.
  - now apply le_fin.
Qed.

Lemma div_fin (a b : Q) : ~ b == 0 -> div (Fin a) (Fin b) = Fin (a / b).
Proof.
  intro H. unfold div.
  destruct (Qeq_bool b 0) eqn:E; [ | reflexivity ].
  apply Qeq_bool_eq in E. contradiction.
Qed.

Lemma Qfloor_half (k : Z) (x : Q) : x == inject_Z k + (1 # 2) -> Qfloor x = k.
Proof.
  intro E.
  assert (L : (k <= Qfloor x)%Z).
  { rewrite <- (Qfloor_Z k). apply Qfloor_resp_le. lra. }
  assert (U : (Qfloor x < k + 1)%Z).
  { rewrite Zlt_Qlt, inject_Z_plus. change (inject_Z 1) with 1.
    pose proof (Qfloor_le x). lra. }
  lia.
Qed.

End FiniteFacts.

Ltac split_gt a b := destruct (gt_fin_case a b) as [[? ->] | [? ->]].
Ltac split_lt a b := destruct (lt_fin_case a b) as [[? ->] | [? ->]].
Ltac split_le a b := destruct (le_fin_case a b) as [[? ->] | [? ->]].

(* ------------------------------------------------------------------ *)
(** ** Finite ranges of integers *)

Section Grids.

Lemma zrange_In (n : nat) : forall a k : Z,
  (a <= k < a + Z.of_nat n)%Z -> In k (zrange a n).
Proof.
  induction n as [ | n IH ]; intros a k H; [ lia | ].
  cbn [zrange]. destruct (Z.eq_dec a k) as [E | E]; [ now left | right ].
  apply IH. lia.
Qed.

Lemma zinterval_In (a b k : Z) : (a <= k <= b)%Z -> In k (zinterval a b).
Proof. intro H. apply zrange_In. lia. Qed.

(** A test that holds along a range holds at each of its integers. *)
Lemma forallb_zinterval (f : Z -> bool) (a b : Z) :
  forallb f (zinterval a b) = true ->
  forall k : Z, (a <= k <= b)%Z -> f k = true.
Proof.
  intros H k Hk. rewrite forallb_forall in H. apply H, zinterval_In, Hk.
Qed.

Lemma two_sided_In (a b j : Z) :
  (0 < a)%Z -> (a <= Z.abs j <= b)%Z ->
  In j (zinterval (- b) (- a) ++ zinterval a b).
Proof.
  intros Ha H. apply in_or_app.
  destruct (Z_lt_le_dec j 0); [ left | right ]; apply zinterval_In; lia.
Qed.

Lemma usualPrices_In (j : Z) : (20 <= Z.abs j <= 400)%Z -> In j usualPrices.
Proof. intro H. apply (two_sided_In 20 400); [ lia | exact H ]. Qed.

(** A test that holds at the integer prices from 100 to 100000 on both
    sides holds at each of them. *)
Lemma on_integer_prices (f : Z -> bool) :
  forallb f (zinterval 100 100000) = true ->
  forallb f (zinterval (-100000) (-100)) = true ->
  forall o : Z, (100 <= Z.abs o <= 100000)%Z -> f o = true.
Proof.
  intros P N o H. destruct (Z_lt_le_dec o 0).
  - apply (forallb_zinterval f _ _ N). lia.
  - apply (forallb_zinterval f _ _ P). lia.
Qed.

(** A test that holds at every probability with three decimals and every
    usual price holds at each such pair. *)
Lemma on_probabilities_and_prices (f : Z -> Z -> bool) :
  forallb (fun k => forallb (f k) usualPrices) (zinterval 1 999) = true ->
  forall k j : Z, (1 <= k <= 999)%Z -> (20 <= Z.abs j <= 400)%Z -> f k j = true.
Proof.
  intros G k j Hk Hj.
  rewrite forallb_forall in G. specialize (G k (zinterval_In _ _ _ Hk)).
  rewrite forallb_forall in G. exact (G j (usualPrices_In j Hj)).
Qed.


End Grids.

(* ------------------------------------------------------------------ *)
(** ** Comparisons of binary64 numbers *)

Section FloatOrder.

Local Open Scope float_scope.

Lemma SFcompare_antisym (x y : spec_float) (c : comparison) :
  SFcompare x y = Some c -> SFcompare y x = Some (CompOpp c).
Proof.
  destruct x as [ [ | ] | [ | ] | | [ | ] m1 e1 ],
           y as [ [ | ] | [ | ] | | [ | ] m2 e2 ];
    cbn [SFcompare]; intro H; try discriminate H;
    try (injection H as <-; reflexivity).
  - injection H as <-. rewrite (Z.compare_antisym e1 e2).
    destruct (e1 ?= e2)%Z; cbn [CompOpp]; try reflexivity.
    rewrite (Pos.compare_cont_antisym m1 m2 Eq). reflexivity.
  - injection H as <-. rewrite (Z.compare_antisym e1 e2).
    destruct (e1 ?= e2)%Z; cbn [CompOpp]; try reflexivity.
    rewrite (Pos.compare_cont_antisym m1 m2 Eq). cbn [CompOpp].
    reflexivity.
Qed.


Lemma ltb_ltb_false (x y : float) : (x <? y) = true -> (y <? x) = false.
Proof.
  rewrite !ltb_spec. unfold SFltb.
  destruct (SFcompare (Prim2SF x) (Prim2SF y)) as [ c | ] eqn:E;
    [ | discriminate ].
  rewrite (SFcompare_antisym _ _ _ E).
  destruct c; [ discriminate | reflexivity | discriminate ].
Qed.

(** [Math.max(0, x)] is never a negative number. *)
Lemma Math_max_zero (x : float) : (B64.Math_max 0 x <? 0) = false.
Proof.
  unfold B64.Math_max. change (is_nan 0) with false. cbn [orb].
  destruct (is_nan x); [ reflexivity | ].
  destruct (0 <? x) eqn:E; [ apply ltb_ltb_false, E | ].
  destruct (x <? 0); reflexivity.
Qed.

End FloatOrder.

(* ------------------------------------------------------------------ *)
(** ** The binary64 code evaluated on the usual inputs *)

Section UsualInputs.

Import B64.
Local Open Scope float_scope.

(** The probability and the decimal price of every integer price from 100
    to 100000 in magnitude. *)
Lemma prices_evaluated (o : Z) :
  (100 <= Z.abs o <= 100000)%Z ->
  PrimFloat.is_finite (americanToImpliedProbability (ofZ o)) = true /\
  PrimFloat.is_finite (americanToDecimalOdds (ofZ o)) = true /\
  (PrimFloat.abs (americanToImpliedProbability (ofZ o)
                  * americanToDecimalOdds (ofZ o) - 1) <=? 0x1p-52) = true /\
  (1 <? americanToDecimalOdds (ofZ o)) = true.
Proof.
  intro H.
  pose proof (on_integer_prices (fun o =>
      PrimFloat.is_finite (americanToImpliedProbability (ofZ o))
      && (PrimFloat.is_finite (americanToDecimalOdds (ofZ o))
          && ((PrimFloat.abs (americanToImpliedProbability (ofZ o)
                              * americanToDecimalOdds (ofZ o) - 1) <=? 0x1p-52)
              && (1 <? americanToDecimalOdds (ofZ o)))))
    ltac:(vm_compute; reflexivity) ltac:(vm_compute; reflexivity) o H) as C.
  cbv beta in C.
  apply andb_prop in C. destruct C as [A C].
  apply andb_prop in C. destruct C as [B C].
  apply andb_prop in C. destruct C as [C D]. auto.
Qed.

(** The stake and the expected value of every probability with three
    decimals at every usual price. *)
Lemma stakes_evaluated (k j : Z) :
  (1 <= k <= 999)%Z -> (20 <= Z.abs j <= 400)%Z ->
  let p := thousandth k in
  let o := ofZ (5 * j) in
  let s := calculateKellyStake p o in
  let ev := calculateExpectedValue o p in
  PrimFloat.is_finite s = true /\
  (0 <=? s) = true /\ (s <? p) = true /\ (s <? 1) = true /\
  (0 <? s) = (0 <? ev) /\
  ((americanToImpliedProbability o + 0x1p-50 <? p) = true -> (0 <? ev) = true) /\
  ((p + 0x1p-50 <? americanToImpliedProbability o) = true -> (ev <? 0) = true).
Proof.
  intros Hk Hj p o s ev.
  pose proof (on_probabilities_and_prices (fun k j =>
      let p := thousandth k in
      let o := ofZ (5 * j) in
      let s := calculateKellyStake p o in
      let ev := calculateExpectedValue o p in
      PrimFloat.is_finite s
      && ((0 <=? s) && ((s <? p) && ((s <? 1)
      && (Bool.eqb (0 <? s) (0 <? ev)
      && (implb (americanToImpliedProbability o + 0x1p-50 <? p) (0 <? ev)
      && implb (p + 0x1p-50 <? americanToImpliedProbability o) (ev <? 0)))))))
    ltac:(vm_compute; reflexivity) k j Hk Hj) as C.
  cbv beta zeta in C. fold p o in C. fold s ev in C.
  apply andb_prop in C. destruct C as [C1 C].
  apply andb_prop in C. destruct C as [C2 C].
  apply andb_prop in C. destruct C as [C3 C].
  apply andb_prop in C. destruct C as [C4 C].
  apply andb_prop in C. destruct C as [C5 C].
  apply andb_prop in C. destruct C as [C6 C7].
  apply Bool.eqb_prop in C5.
  repeat (split; [ assumption | ]).
  split; intro H; [ rewrite H in C6 | rewrite H in C7 ]; assumption.
Qed.

End UsualInputs.

(* ------------------------------------------------------------------ *)
(** ** Edge classification *)

Section Classification.

Import OddsService SimulationService.

(** The thresholds of the source are the binary64 values of its literals. *)
Lemma double_thresholds :
  double 0.05%float = Fin t005 /\ double 0.02%float = Fin t002 /\
  double (-0.05)%float = Fin (- t005) /\ double (-0.02)%float = Fin (- t002).
Proof. repeat split; vm_compute; reflexivity. Qed.

(** The binary64 values of 0.05 and 0.02 lie above 1/20 and 1/50, within
    10^-17 of them. *)
Lemma thresholds_near :
  5 # 100 < t005 /\ t005 < (5 # 100) + (1 # 100000000000000000) /\
  2 # 100 < t002 /\ t002 < (2 # 100) + (1 # 100000000000000000).
Proof. repeat split; reflexivity. Qed.

(** C1.  For every finite edge, the rating is decided by the five buckets
    edge > 0.05 (strong_value), 0.02 < edge <= 0.05 (value), edge < -0.05
    (poor), -0.05 <= edge < -0.02 (below) and -0.02 <= edge <= 0.02 (fair),
    where 0.05 and 0.02 are the binary64 numbers that the source compares
    with: each rating is returned exactly on its bucket, so the buckets cover
    every edge without overlap.  The numbers 0.02 and -0.02 themselves rate
    fair, and 0.06, 0.03, 0, -0.03 and -0.06 rate strong_value, value, fair,
    below and poor.  The rating of the simulation service uses the same
    buckets under the names strong, value, poor, negative and neutral. *)
Theorem classifyEdge_partition : forall e : Q,
  let t5 := valueOf (double 0.05%float) in
  let t2 := valueOf (double 0.02%float) in
  ((determineValueType (Fin e) = "strong_value" <-> t5 < e) /\
   (determineValueType (Fin e) = "value" <-> t2 < e <= t5) /\
   (determineValueType (Fin e) = "poor" <-> e < - t5) /\
   (determineValueType (Fin e) = "below" <-> - t5 <= e < - t2) /\
   (determineValueType (Fin e) = "fair" <-> - t2 <= e <= t2)) /\
  ((_getValueRating (Fin e) = "strong" <-> t5 < e) /\
   (_getValueRating (Fin e) = "value" <-> t2 < e <= t5) /\
   (_getValueRating (Fin e) = "poor" <-> e < - t5) /\
   (_getValueRating (Fin e) = "negative" <-> - t5 <= e < - t2) /\
   (_getValueRating (Fin e) = "neutral" <-> - t2 <= e <= t2)) /\
  (determineValueType (double 0.02%float) = "fair" /\
   determineValueType (double (-0.02)%float) = "fair" /\
   _getValueRating (double 0.02%float) = "neutral" /\
   _getValueRating (double (-0.02)%float) = "neutral") /\
  (determineValueType (double 0.06%float) = "strong_value" /\
   determineValueType (double 0.03%float) = "value" /\
   determineValueType (double 0%float) = "fair" /\
   determineValueType (double (-0.03)%float) = "below" /\
   determineValueType (double (-0.06)%float) = "poor") /\
  (valueOf (double (-0.05)%float) == - t5 /\
   valueOf (double (-0.02)%float) == - t2).
Proof.
  intros e t5 t2.
  destruct double_thresholds as (E5 & E2 & M5 & M2).
  assert (T5 : t5 = t005) by (subst t5; now rewrite E5).
  assert (T2 : t2 = t002) by (subst t2; now rewrite E2).
  assert (O : t002 < t005) by reflexivity.
  assert (P : 0 < t002) by reflexivity.
  split; [ | split; [ | split; [ | split; [ | split ] ] ] ].
  5: now rewrite M5, T5.
  5: now rewrite M2, T2.
  3: repeat split; vm_compute; reflexivity.
  3: repeat split; vm_compute; reflexivity.
  all: unfold determineValueType, _getValueRating.
  all: rewrite E5, E2, M5, M2, T5, T2.
  all: split_gt e t005;
         [ | split_gt e t002;
             [ | split_lt e (- t005); [ | split_lt e (- t002) ] ] ].
  all: repeat split; intros; try discriminate; try reflexivity; lra.
Qed.

End Classification.

(* ------------------------------------------------------------------ *)
(** ** American odds to implied probability *)

Section ImpliedProbability.

Import OddsUtils OddsService SimulationService.

(** The three copies of the conversion in the source are the same function. *)
Lemma oddsToProb_same (o : num) :
  oddsToProb o = americanToImpliedProbability o /\
  _oddsToProb o = americanToImpliedProbability o.
Proof. split; reflexivity. Qed.

Lemma americanToImpliedProbability_pos (o : Q) :
  0 < o -> americanToImpliedProbability (Fin o) = Fin (100 / (o + 100)).
Proof.
  intro H. unfold americanToImpliedProbability.
  split_gt o 0; [ | lra ].
  cbn [add]. apply div_fin. lra.
Qed.

Lemma americanToImpliedProbability_nonpos (o : Q) :
  o <= 0 ->
  americanToImpliedProbability (Fin o) = Fin (Qabs o / (Qabs o + 100)).
Proof.
  intro H. unfold americanToImpliedProbability.
  split_gt o 0; [ lra | ].
  cbn [add abs]. apply div_fin.
  pose proof (Qabs_nonneg o). lra.
Qed.

(** Zero odds are converted, not rejected: the call returns the number 0. *)
Lemma americanToImpliedProbability_zero :
  americanToImpliedProbability (Fin 0) =~ Fin 0.
Proof. vm_compute. reflexivity. Qed.

(** C2 (as stated, refuted).  At odds 0 the conversion does not fail: both
    copies return the number 0. *)
Lemma zero_odds_not_rejected :
  exists q : Q, q == 0 /\
    call americanToImpliedProbability (Fin 0) = Return (Fin q) /\
    call oddsToProb (Fin 0) = Return (Fin q) /\
    ~ throws (call americanToImpliedProbability (Fin 0)).
Proof.
  exists (0 # 100). repeat split.
  intros [m H]. discriminate H.
Qed.

(** C2 (amended).  For every finite odds value o: if o > 0 the result is
    100 / (o + 100); if o < 0 it is |o| / (|o| + 100); if o = 0 the result is
    the number 0 and no error is raised.  The helper of the odds service
    computes the same value. *)
Theorem americanToProbability_cases : forall o : Q,
  (0 < o -> call americanToImpliedProbability (Fin o)
            = Return (Fin (100 / (o + 100)))) /\
  (o < 0 -> call americanToImpliedProbability (Fin o)
            = Return (Fin (Qabs o / (Qabs o + 100)))) /\
  (o == 0 -> exists q, q == 0 /\
             call americanToImpliedProbability (Fin o) = Return (Fin q)) /\
  oddsToProb (Fin o) = americanToImpliedProbability (Fin o).
Proof.
  intro o. unfold call. repeat split.
  - intro H. now rewrite americanToImpliedProbability_pos.
  - intro H. rewrite americanToImpliedProbability_nonpos; [ reflexivity | lra ].
  - intro H. exists (Qabs o / (Qabs o + 100)). split.
    + rewrite H. reflexivity.
    + rewrite americanToImpliedProbability_nonpos; [ reflexivity | lra ].
Qed.

Lemma americanToProbability_cases_witness :
  call americanToImpliedProbability (Fin 140) = Return (Fin (100 / (140 + 100))) /\
  call americanToImpliedProbability (Fin (-150))
    = Return (Fin (Qabs (-150) / (Qabs (-150) + 100))) /\
  (exists q, q == 0 /\
     call americanToImpliedProbability (Fin 0) = Return (Fin q)).
Proof.
  split; [ | split ].
  - destruct (americanToProbability_cases 140) as (H & _). apply H. reflexivity.
  - destruct (americanToProbability_cases (-150)) as (_ & H & _). apply H. reflexivity.
  - destruct (americanToProbability_cases 0) as (_ & _ & H & _). apply H. reflexivity.
Defined.

End ImpliedProbability.

(* ------------------------------------------------------------------ *)
(** ** Implied probability to American odds, in binary64 *)

Section ProbabilityToAmericanB64.

Import B64.
Local Open Scope float_scope.






End ProbabilityToAmericanB64.

(* ------------------------------------------------------------------ *)
(** ** The Kelly stake in binary64 *)

Section KellyB64.

Import B64.
Local Open Scope float_scope.

(** The stake is never a negative number, whatever the arguments are. *)
Lemma calculateKellyStake_not_negative (p o : float) :
  (calculateKellyStake p o <? 0) = false.
Proof. unfold calculateKellyStake. apply Math_max_zero. Qed.



(** C7 (as stated, refuted).  With probability 0, or probability 1.5, at
    odds +100 the call does not fail: it returns the numbers 0 and 2. *)
Lemma degenerate_stake_not_rejected :
  (0 <=? 0) = true /\ (1 <=? 1.5) = true /\
  call (calculateKellyStake 0) 100 = Return 0 /\
  call (calculateKellyStake 1.5) 100 = Return 2 /\
  ~ throws (call (calculateKellyStake 0) 100) /\
  ~ throws (call (calculateKellyStake 1.5) 100).
Proof.
  repeat split; try (vm_compute; reflexivity);
    intros [m H]; discriminate H.
Qed.

(** C7 (amended).  The stake function rejects nothing: for every
    probability argument that is <= 0 or >= 1, and every odds argument, the
    call raises no error and returns a value of number type, never a
    negative one: max(0, (b * p - (1 - p)) / b) with b the decimal price
    minus 1, each operation rounded.  No odds argument raises an error
    either.  The value need not be a stake: it is 2 for probability 1.5 at
    +100, NaN for probability 1 at -10^18, Infinity for probability 1.5 at
    -10^18, and NaN for probability 0.5 at odds 0. *)
Theorem kellyStake_degenerate :
  (forall p o : float,
     (p <=? 0) = true \/ (1 <=? p) = true ->
     ~ throws (call (calculateKellyStake p) o) /\
     exists s : float,
       call (calculateKellyStake p) o = Return s /\
       s = Math_max 0 (((americanToDecimalOdds o - 1) * p - (1 - p))
                       / (americanToDecimalOdds o - 1)) /\
       (s <? 0) = false) /\
  (forall p o : float, ~ throws (call (calculateKellyStake p) o)) /\
  calculateKellyStake 0 100 = 0 /\
  calculateKellyStake 1.5 100 = 2 /\
  calculateKellyStake 1 (-1e18) = nan /\
  calculateKellyStake 1.5 (-1e18) = infinity /\
  calculateKellyStake 0.5 0 = nan.
Proof.
  split; [ | split; [ | repeat split; vm_compute; reflexivity ] ].
  - intros p o _. split.
    + intros [m H]. discriminate H.
    + eexists. split; [ reflexivity | ]. split; [ reflexivity | ].
      apply calculateKellyStake_not_negative.
  - intros p o [m H]. discriminate H.
Qed.

Lemma kellyStake_degenerate_witness :
  ((1.5 <=? 0) = true \/ (1 <=? 1.5) = true) /\
  ~ throws (call (calculateKellyStake 1.5) (-120)) /\
  exists s : float,
    call (calculateKellyStake 1.5) (-120) = Return s /\
    s = Math_max 0 (((americanToDecimalOdds (-120) - 1) * 1.5 - (1 - 1.5))
                    / (americanToDecimalOdds (-120) - 1)) /\
    (s <? 0) = false.
Proof.
  assert (H : (1.5 <=? 0) = true \/ (1 <=? 1.5) = true) by (right; reflexivity).
  split; [ exact H | ].
  destruct kellyStake_degenerate as [K _].
  exact (K 1.5 (-120) H).
Defined.

End KellyB64.

(* ------------------------------------------------------------------ *)
(** ** Finite probabilities and edges, at the exact values *)

Section FiniteResults.

Import OddsUtils OddsService SimulationService.

Lemma americanToImpliedProbability_finite (o : Q) :
  exists r : Q, americanToImpliedProbability (Fin o) = Fin r.
Proof.
  destruct (Qlt_le_dec 0 o) as [H | H]; eexists.
  - now apply americanToImpliedProbability_pos.
  - now apply americanToImpliedProbability_nonpos.
Qed.

Lemma _calculateEdge_finite (m s : Q) :
  exists r : Q, _calculateEdge (Fin m) (Fin s) = Fin r.
Proof.
  unfold _calculateEdge.
  destruct (oddsToProb_same (Fin m)) as [_ ->].
  destruct (oddsToProb_same (Fin s)) as [_ ->].
  destruct (americanToImpliedProbability_finite m) as [a ->].
  destruct (americanToImpliedProbability_finite s) as [b ->].
  eexists. reflexivity.
Qed.

End FiniteResults.

(* ------------------------------------------------------------------ *)
(** ** Finite results, in binary64 *)

Section FiniteResultsB64.

Import B64.
Local Open Scope float_scope.








End FiniteResultsB64.

(* ------------------------------------------------------------------ *)
(** ** Missing inputs of the value analysis *)

Section MissingInputs.

Import OddsService SimulationService.

(** C10.  When either argument is null or undefined, both entry points of
    the value analysis return null: no error is raised and no partial
    result is built. *)
Theorem analysis_null_on_missing_input :
  forall (marketOdds simulatedOdds : arg Odds) (simulation : arg Simulation),
    (falsy marketOdds = true \/ falsy simulatedOdds = true ->
     analyzeBettingValue marketOdds simulatedOdds = Return None) /\
    (falsy simulation = true \/ falsy marketOdds = true ->
     analyzeValue simulation marketOdds = Return None).
Proof.
  intros m s sim. split; intros [H | H].
  - destruct m; [ reflexivity | reflexivity | discriminate H ].
  - destruct s; [ | | discriminate H ]; destruct m; reflexivity.
  - destruct sim; [ reflexivity | reflexivity | discriminate H ].
  - destruct m; [ | | discriminate H ]; destruct sim; reflexivity.
Qed.

Lemma analysis_null_on_missing_input_witness :
  let market := Obj (mkOdds (Fin (-150)) (Fin 130) (Fin (-110)) (Fin (-110))) in
  analyzeBettingValue market Undefined = Return None /\
  analyzeBettingValue Null market = Return None /\
  analyzeValue Null market = Return None /\
  analyzeValue (Obj (mkSimulation Undefined)) Undefined = Return None.
Proof.
  intro market.
  destruct (analysis_null_on_missing_input market Undefined Null) as [A B].
  destruct (analysis_null_on_missing_input Null market
              (Obj (mkSimulation Undefined))) as [C _].
  destruct (analysis_null_on_missing_input Undefined Undefined
              (Obj (mkSimulation Undefined))) as [_ D].
  split; [ | split; [ | split ] ].
  - apply A. right. reflexivity.
  - apply C. left. reflexivity.
  - apply B. left. reflexivity.
  - apply D. right. reflexivity.
Defined.

End MissingInputs.

(* ------------------------------------------------------------------ *)
(** ** Sorting by a numeric key, greatest first *)

Section SortDescending.

Context {A : Type} (key : A -> num).

Let cmp : A -> A -> num := fun a b => sub (key b) (key a).

Lemma insert_perm (x : A) (l : list A) : Permutation (insert cmp x l) (x :: l).
Proof.
  induction l as [ | y ys IH ]; cbn [insert]; [ reflexivity | ].
  destruct (gt (cmp x y) (Fin 0)); [ | reflexivity ].
  rewrite IH. apply perm_swap.
Qed.

Lemma sort_perm (l : list A) : Permutation (sort cmp l) l.
Proof.
  induction l as [ | x xs IH ]; cbn [sort]; [ reflexivity | ].
  rewrite insert_perm. now apply perm_skip.
Qed.

(** On finite keys the comparator is positive exactly when its first
    argument has the smaller key. *)
Lemma cmp_positive (x y : A) :
  is_finite (key x) = true -> is_finite (key y) = true ->
  (valueOf (key x) < valueOf (key y) /\ gt (cmp x y) (Fin 0) = true) \/
  (valueOf (key y) <= valueOf (key x) /\ gt (cmp x y) (Fin 0) = false).
Proof.
  unfold cmp. destruct (key x) as [ | | | a ]; try discriminate.
  destruct (key y) as [ | | | b ]; try discriminate. intros _ _.
  cbn [sub add neg valueOf].
  split_gt (b + - a) 0; [ left | right ]; split; try reflexivity; lra.
Qed.

Lemma finite_keys_perm (l l' : list A) :
  Permutation l l' -> finite_keys key l -> finite_keys key l'.
Proof. intros P F. unfold finite_keys in *. now rewrite <- P. Qed.

Lemma sort_finite (l : list A) : finite_keys key l -> finite_keys key (sort cmp l).
Proof. apply finite_keys_perm. symmetry. apply sort_perm. Qed.

Lemma insert_descending (x : A) (l : list A) :
  is_finite (key x) = true -> finite_keys key l ->
  descending key l -> descending key (insert cmp x l).
Proof.
  intros Fx Fl D. induction D as [ | y ys Dys IH Hy ]; cbn [insert].
  - repeat constructor.
  - inversion Fl as [ | ? ? Fy Fys ]; subst.
    destruct (cmp_positive x y Fx Fy) as [[L ->] | [L ->]].
    + constructor; [ now apply IH | ].
      rewrite (insert_perm x ys). constructor; [ lra | exact Hy ].
    + constructor; [ now constructor | ].
      constructor; [ exact L | ].
      eapply Forall_impl; [ | exact Hy ]. cbn. intros z Hz. lra.
Qed.

Lemma sort_descending (l : list A) :
  finite_keys key l -> descending key (sort cmp l).
Proof.
  induction l as [ | x xs IH ]; intro F; cbn [sort].
  - constructor.
  - inversion F; subst.
    apply insert_descending; auto. now apply sort_finite.
Qed.

(** Inserting does not change the order among elements of one key. *)
Lemma insert_with_key (c : Q) (x : A) (l : list A) :
  is_finite (key x) = true -> finite_keys key l ->
  with_key key c (insert cmp x l) = with_key key c (x :: l).
Proof.
  intros Fx Fl. induction Fl as [ | y ys Fy Fys IH ]; cbn [insert]; [ reflexivity | ].
  destruct (cmp_positive x y Fx Fy) as [[L ->] | [L ->]]; [ | reflexivity ].
  unfold with_key in *. cbn [filter] in *. rewrite IH.
  destruct (Qeq_bool (valueOf (key x)) c) eqn:Ex;
    destruct (Qeq_bool (valueOf (key y)) c) eqn:Ey; try reflexivity.
  apply Qeq_bool_eq in Ex, Ey. lra.
Qed.

Lemma sort_with_key (c : Q) (l : list A) :
  finite_keys key l -> with_key key c (sort cmp l) = with_key key c l.
Proof.
  induction l as [ | x xs IH ]; intro F; cbn [sort]; [ reflexivity | ].
  inversion F; subst.
  rewrite insert_with_key by (auto using sort_finite).
  unfold with_key in *. cbn [filter]. now rewrite IH.
Qed.

(** The sorted list starts with the first maximum of the input. *)
Lemma sort_head (l : list A) :
  finite_keys key l -> l <> [] ->
  exists i x tl, first_maximum key l i x /\ sort cmp l = x :: tl.
Proof.
  induction l as [ | x xs IH ]; intros F Hne; [ contradiction | ].
  inversion F as [ | ? ? Fx Fxs ]; subst. cbn [sort].
  destruct xs as [ | x' xs' ].
  - exists 0%nat, x, []. split; [ | reflexivity ].
    split; [ reflexivity | split ].
    + intros [ | j ] y Hy; cbn in Hy; [ | destruct j; discriminate ].
      injection Hy as <-. lra.
    + intros j y Hj. lia.
  - destruct (IH Fxs) as (i & m & tl & (Hi & Hmax & Hfirst) & Hs); [ discriminate | ].
    rewrite Hs. cbn [insert].
    assert (Fm : is_finite (key m) = true).
    { unfold finite_keys in Fxs. rewrite Forall_forall in Fxs.
      apply Fxs. eapply nth_error_In, Hi. }
    destruct (cmp_positive x m Fx Fm) as [[L ->] | [L ->]].
    + exists (S i), m, (insert cmp x tl). split; [ | reflexivity ].
      split; [ exact Hi | split ].
      * intros [ | j ] y Hy; cbn [nth_error] in Hy.
        -- injection Hy as <-. lra.
        -- eapply Hmax, Hy.
      * intros [ | j ] y Hj Hy; cbn [nth_error] in Hy.
        -- injection Hy as <-. exact L.
        -- eapply Hfirst; [ | exact Hy ]. lia.
    + exists 0%nat, x, (m :: tl). split; [ | reflexivity ].
      split; [ reflexivity | split ].
      * intros [ | j ] y Hy; cbn [nth_error] in Hy.
        -- injection Hy as <-. lra.
        -- specialize (Hmax j y Hy). lra.
      * intros j y Hj. lia.
Qed.

End SortDescending.

(* ------------------------------------------------------------------ *)
(** ** Best value among the edges *)

Section BestValue.

Import OddsService.

(** C3.  For every non-empty list of entries with finite edges (the
    entries of the mapping, in iteration order), the first entry that
    carries the maximum edge decides the result: null exactly when that edge
    is <= 0.02, and otherwise that entry's name, the display name read under
    it, its edge and the rating of that edge, which is value up to 0.05 and
    strong_value above; 0.02 and 0.05 are the binary64 numbers that the
    source compares with.  For {home: 0.07, away: -0.01, over: 0.03,
    under: -0.03} the result is home, 0.07, strong_value, and for
    {home: 0.02} it is null.  The display name is the one of home, away,
    over or under; under another key it is a member inherited from
    Object.prototype when there is one of that name, and undefined
    otherwise. *)
Theorem findBestValue_spec :
  (forall edges : list (string * num),
     edges <> [] -> finite_keys snd edges ->
     exists (i : nat) (k : string) (e : Q),
       first_maximum snd edges i (k, Fin e) /\
       (findBestValue edges = Return None <-> e <= valueOf (double 0.02%float)) /\
       (valueOf (double 0.02%float) < e -> e <= valueOf (double 0.05%float) ->
        findBestValue edges
        = Return (Some {| type := k; typeName := typeNames k; edge := Fin e;
                          valueType := "value" |})) /\
       (valueOf (double 0.05%float) < e ->
        findBestValue edges
        = Return (Some {| type := k; typeName := typeNames k; edge := Fin e;
                          valueType := "strong_value" |}))) /\
  findBestValue [("home", double 0.07%float); ("away", double (-0.01)%float);
                 ("over", double 0.03%float); ("under", double (-0.03)%float)]
  = Return (Some {| type := "home"; typeName := Own "Home Moneyline";
                    edge := double 0.07%float; valueType := "strong_value" |}) /\
  findBestValue [("home", double 0.02%float)] = Return None /\
  (typeNames "home" = Own "Home Moneyline" /\
   typeNames "away" = Own "Away Moneyline" /\
   typeNames "over" = Own "Over Total" /\
   typeNames "under" = Own "Under Total" /\
   typeNames "toString" = Prototype "toString" /\
   typeNames "draw" = Missing).
Proof.
  split; [ | split; [ | split ] ].
  2, 3: vm_compute; reflexivity.
  2: repeat split.
  intros edges Hne F.
  destruct (sort_head snd edges F Hne) as (i & [k v] & tl & Hmax & Hs).
  assert (Fv : is_finite v = true).
  { destruct Hmax as (Hi & _). unfold finite_keys in F.
    rewrite Forall_forall in F. apply (F (k, v)). eapply nth_error_In, Hi. }
  destruct v as [ | | | e ]; try discriminate.
  exists i, k, e. split; [ exact Hmax | ].
  destruct double_thresholds as (E5 & E2 & _).
  assert (O : t002 < t005) by reflexivity.
  unfold findBestValue, determineValueType. rewrite Hs, E5, E2.
  cbn [valueOf].
  split; [ | split ].
  - split_le e t002; split; intro; try reflexivity; try discriminate; lra.
  - intros H1 H2. split_le e t002; [ lra | ].
    split_gt e t005; [ lra | ]. split_gt e t002; [ reflexivity | lra ].
  - intro H. split_le e t002; [ lra | ].
    split_gt e t005; [ reflexivity | lra ].
Qed.

Lemma findBestValue_spec_witness :
  let edges := [("home", double 0.01%float); ("away", double 0.04%float);
                ("over", double 0.04%float)] in
  edges <> [] /\ finite_keys snd edges /\
  exists (i : nat) (k : string) (e : Q),
    first_maximum snd edges i (k, Fin e) /\
    (findBestValue edges = Return None <-> e <= valueOf (double 0.02%float)) /\
    (valueOf (double 0.02%float) < e -> e <= valueOf (double 0.05%float) ->
     findBestValue edges
     = Return (Some {| type := k; typeName := typeNames k; edge := Fin e;
                       valueType := "value" |})) /\
    (valueOf (double 0.05%float) < e ->
     findBestValue edges
     = Return (Some {| type := k; typeName := typeNames k; edge := Fin e;
                       valueType := "strong_value" |})).
Proof.
  intro edges.
  assert (Hne : edges <> []) by discriminate.
  assert (F : finite_keys snd edges) by (repeat constructor).
  split; [ exact Hne | split; [ exact F | ] ].
  destruct findBestValue_spec as [K _].
  exact (K edges Hne F).
Defined.

End BestValue.

(* ------------------------------------------------------------------ *)
(** ** Ranking of the prop candidates *)

Section Ranking.

Import GameService.

(** C9.  For every list of candidates with finite confidences, the ranked
    list holds the same candidates, is in descending order of confidence,
    and keeps the candidates of any one confidence in their original
    relative order.  Confidences [0.55, 0.82, 0.70] come out as
    [0.82, 0.70, 0.55]. *)
Theorem sortByConfidence_stable_descending :
  (forall props : list PropBet,
     finite_keys confidence props ->
     Permutation (sortByConfidence props) props /\
     descending confidence (sortByConfidence props) /\
     (forall c : Q,
        with_key confidence c (sortByConfidence props)
        = with_key confidence c props)) /\
  map confidence
    (sortByConfidence [candidate "Player 1" (lit 55 100);
                       candidate "Player 2" (lit 82 100);
                       candidate "Player 3" (lit 70 100)])
  = [lit 82 100; lit 70 100; lit 55 100].
Proof.
  split; [ | reflexivity ].
  intros props F. unfold sortByConfidence. split; [ | split ].
  - apply sort_perm.
  - now apply sort_descending.
  - intro c. now apply sort_with_key.
Qed.

Lemma sortByConfidence_stable_descending_witness :
  let props := [candidate "Player 1" (lit 70 100);
                candidate "Player 2" (lit 82 100);
                candidate "Player 3" (lit 70 100)] in
  finite_keys confidence props /\
  Permutation (sortByConfidence props) props /\
  descending confidence (sortByConfidence props) /\
  (forall c : Q,
     with_key confidence c (sortByConfidence props)
     = with_key confidence c props).
Proof.
  intro props.
  assert (F : finite_keys confidence props) by (repeat constructor).
  split; [ exact F | ].
  destruct sortByConfidence_stable_descending as [K _].
  exact (K props F).
Defined.

End Ranking.

(* ------------------------------------------------------------------ *)
(** ** The round trip from the odds side, in binary64 *)

Section RoundTripB64.

Import B64.
Local Open Scope float_scope.

(** The prices [5 * j] from 100 to 100000 in magnitude, but for -100, come
    back from the round trip as they are. *)
Lemma roundTrip_fixed (j : Z) :
  (20 <= j <= 20000)%Z \/ (-20000 <= j <= -21)%Z ->
  roundTrip (ofZ (5 * j)) = Return (ofZ (5 * j)).
Proof.
  assert (G : forall a b : Z,
             forallb (fun j => match roundTrip (ofZ (5 * j)) with
                               | Return r => Leibniz.eqb r (ofZ (5 * j))
                               | Throw _ => false
                               end) (zinterval a b) = true ->
             forall j, (a <= j <= b)%Z ->
                       roundTrip (ofZ (5 * j)) = Return (ofZ (5 * j))).
  { intros a b H k Hk. pose proof (forallb_zinterval _ _ _ H k Hk) as C.
    cbv beta in C.
    destruct (roundTrip (ofZ (5 * k))) as [ r | ]; [ | discriminate C ].
    apply Leibniz.eqb_spec in C. now subst r. }
  intros [H | H]; [ apply (G 20 20000)%Z | apply (G (-20000) (-21))%Z ];
    try exact H; vm_compute; reflexivity.
Qed.

Lemma roundTrip_minus_100 : roundTrip (ofZ (5 * -20)) = Return (ofZ 100).
Proof. vm_compute. reflexivity. Qed.

(** C6 (as stated, refuted).  The probability 0.505 is priced at -100, and
    the round trip sends -100 to +100, a different number.  Far from the
    usual prices rounding moves the price as well: the probability
    1 - 2^-49 is priced at -56294995342131104, which the round trip sends
    to -60047995031606512. *)
Lemma roundTrip_moves_minus_100 :
  ((0 <? 0.505) = true /\ (0.505 <? 1) = true /\
   impliedProbabilityToAmerican 0.505 = Return (-100) /\
   roundTrip (-100) = Return 100 /\
   (100 =? -100) = false) /\
  ((0 <? 0x1.ffffffffffffp-1) = true /\ (0x1.ffffffffffffp-1 <? 1) = true /\
   impliedProbabilityToAmerican 0x1.ffffffffffffp-1
   = Return (-56294995342131104) /\
   roundTrip (-56294995342131104) = Return (-60047995031606512) /\
   (-60047995031606512 =? -56294995342131104) = false).
Proof. repeat split; vm_compute; reflexivity. Qed.

(** C6 (amended).  For every price o that is a multiple of 5 with
    100 <= |o| <= 100000, the round trip gives o back unless o = -100; the
    price -100 comes back as +100; and in both cases the price the round
    trip returns is a fixed point of the round trip.  The price of every
    probability with three decimals, 0.001 to 0.999, is such a multiple
    of 5, so for each of these probabilities the round trip gives its price
    back unless the price is -100, and is stable after one application. *)
Theorem roundTrip_stable :
  (forall j : Z, (20 <= Z.abs j <= 20000)%Z ->
     (j <> (-20)%Z -> roundTrip (ofZ (5 * j)) = Return (ofZ (5 * j))) /\
     (j = (-20)%Z -> roundTrip (ofZ (5 * j)) = Return (ofZ 100)) /\
     (exists o' : float, roundTrip (ofZ (5 * j)) = Return o' /\
                         roundTrip o' = Return o')) /\
  (forall k : Z, (1 <= k <= 999)%Z ->
     exists j : Z, (20 <= Z.abs j <= 20000)%Z /\
       impliedProbabilityToAmerican (thousandth k) = Return (ofZ (5 * j))) /\
  (forall k : Z, (1 <= k <= 999)%Z ->
     exists o : float,
       impliedProbabilityToAmerican (thousandth k) = Return o /\
       (o <> -100 -> roundTrip o = Return o) /\
       (o = -100 -> roundTrip o = Return 100) /\
       (exists o' : float, roundTrip o = Return o' /\ roundTrip o' = Return o')).
Proof.
  assert (P1 : forall j : Z, (20 <= Z.abs j <= 20000)%Z ->
     (j <> (-20)%Z -> roundTrip (ofZ (5 * j)) = Return (ofZ (5 * j))) /\
     (j = (-20)%Z -> roundTrip (ofZ (5 * j)) = Return (ofZ 100)) /\
     (exists o' : float, roundTrip (ofZ (5 * j)) = Return o' /\
                         roundTrip o' = Return o')).
  { intros j Hj. destruct (Z.eq_dec j (-20)) as [-> | Hne].
    - split; [ intro H; now contradiction H | ].
      split; [ intros _; apply roundTrip_minus_100 | ].
      exists (ofZ 100). split; [ apply roundTrip_minus_100 | ].
      apply (roundTrip_fixed 20). lia.
    - assert (R : roundTrip (ofZ (5 * j)) = Return (ofZ (5 * j)))
        by (apply roundTrip_fixed; lia).
      split; [ intros _; exact R | ].
      split; [ intro E; contradiction | ].
      eexists. split; exact R. }
  assert (P2 : forall k : Z, (1 <= k <= 999)%Z ->
     exists j : Z, (20 <= Z.abs j <= 20000)%Z /\
       impliedProbabilityToAmerican (thousandth k) = Return (ofZ (5 * j))).
  { assert (G : forallb (fun k =>
        match impliedProbabilityToAmerican (thousandth k) with
        | Return o =>
            let j := (toZ o / 5)%Z in
            Leibniz.eqb o (ofZ (5 * j))
            && ((20 <=? Z.abs j)%Z && (Z.abs j <=? 20000)%Z)
        | Throw _ => false
        end) (zinterval 1 999) = true) by (vm_compute; reflexivity).
    intros k Hk. pose proof (forallb_zinterval _ _ _ G k Hk) as C.
    cbv beta in C.
    destruct (impliedProbabilityToAmerican (thousandth k)) as [ o | ];
      [ | discriminate C ].
    cbv zeta in C. set (j := (toZ o / 5)%Z) in *.
    apply andb_prop in C. destruct C as [E B].
    apply andb_prop in B. destruct B as [B1 B2].
    apply Leibniz.eqb_spec in E. apply Z.leb_le in B1, B2.
    exists j. split; [ lia | now rewrite <- E ]. }
  split; [ exact P1 | split; [ exact P2 | ] ].
  intros k Hk. destruct (P2 k Hk) as (j & Hj & E).
  destruct (P1 j Hj) as (F & M & S).
  exists (ofZ (5 * j)). split; [ exact E | ].
  split; [ | split; [ | exact S ] ].
  - intro N. apply F. intros ->. apply N. vm_compute. reflexivity.
  - intros ->. vm_compute. reflexivity.
Qed.

Lemma roundTrip_stable_witness :
  ((20 <= Z.abs (-30) <= 20000)%Z /\
   roundTrip (ofZ (5 * -30)) = Return (ofZ (5 * -30))) /\
  ((1 <= 600 <= 999)%Z /\
   exists o : float,
     impliedProbabilityToAmerican (thousandth 600) = Return o /\
     (o <> -100 -> roundTrip o = Return o) /\
     (o = -100 -> roundTrip o = Return 100) /\
     (exists o' : float, roundTrip o = Return o' /\ roundTrip o' = Return o')).
Proof.
  destruct roundTrip_stable as (A & _ & C).
  assert (Hj : (20 <= Z.abs (-30) <= 20000)%Z) by (cbn; lia).
  assert (Hk : (1 <= 600 <= 999)%Z) by lia.
  split.
  - split; [ exact Hj | ]. destruct (A (-30)%Z Hj) as (K & _).
    apply K. discriminate.
  - split; [ exact Hk | exact (C 600%Z Hk) ].
Defined.

End RoundTripB64.

(* ------------------------------------------------------------------ *)
(** ** Prices, probabilities and expected value *)

Section PricesAndValue.

Import OddsUtils.

Lemma americanToImpliedProbability_bounds (o : Q) :
  ~ o == 0 ->
  exists p : Q,
    americanToImpliedProbability (Fin o) = Fin p /\ 0 < p /\ p < 1 /\
    (o <= -100 -> 1 # 2 <= p) /\ (100 <= o -> p <= 1 # 2).
Proof.
  intro H. destruct (Q_dec o 0) as [[Hneg | Hpos] | Hz]; [ | | contradiction ].
  - exists (Qabs o / (Qabs o + 100)).
    split; [ apply americanToImpliedProbability_nonpos; lra | ].
    assert (Ha : Qabs o == - o) by (apply Qabs_neg; lra).
    set (a := Qabs o) in *.
    split; [ apply Qlt_shift_div_l; lra | ].
    split; [ apply Qlt_shift_div_r; lra | ].
    split; intro K; [ apply Qle_shift_div_l; lra | lra ].
  - exists (100 / (o + 100)).
    split; [ now apply americanToImpliedProbability_pos | ].
    split; [ apply Qlt_shift_div_l; lra | ].
    split; [ apply Qlt_shift_div_r; lra | ].
    split; intro K; [ lra | apply Qle_shift_div_r; lra ].
Qed.

(** An integer price from 100 to 10^9 in magnitude, as a rational. *)
Lemma integer_price (o : Z) :
  (100 <= Z.abs o <= 1000000000)%Z ->
  (inject_Z o <= -100 \/ 100 <= inject_Z o) /\ ~ inject_Z o == 0.
Proof.
  intro H.
  assert (K : (o <= -100 \/ 100 <= o)%Z) by lia.
  rewrite !Zle_Qle in K.
  change (inject_Z (-100)) with (-100) in K.
  change (inject_Z 100) with 100 in K.
  split; [ exact K | ]. intro E. destruct K; lra.
Qed.

(** X1.  For every integer price o with 100 <= |o| <= 10^9 the implied
    probability lies strictly between 0 and 1; it is at least one half for
    a favourite (o <= -100) and at most one half for an underdog
    (o >= 100). *)
Theorem impliedProbability_in_unit_interval : forall o : Z,
  (100 <= Z.abs o <= 1000000000)%Z ->
  exists p : Q,
    americanToImpliedProbability (Fin (inject_Z o)) = Fin p /\ 0 < p < 1 /\
    ((o <= -100)%Z -> 1 # 2 <= p) /\ ((100 <= o)%Z -> p <= 1 # 2).
Proof.
  intros o H. destruct (integer_price o H) as [_ Hz].
  destruct (americanToImpliedProbability_bounds _ Hz) as (p & E & H0 & H1 & F & U).
  exists p. split; [ exact E | ]. split; [ auto | ].
  split; intro K; [ apply F | apply U ]; rewrite Zle_Qle in K; exact K.
Qed.

Lemma impliedProbability_in_unit_interval_witness :
  (100 <= Z.abs (-150) <= 1000000000)%Z /\
  exists p : Q,
    americanToImpliedProbability (Fin (inject_Z (-150))) = Fin p /\ 0 < p < 1 /\
    ((-150 <= -100)%Z -> 1 # 2 <= p) /\ ((100 <= -150)%Z -> p <= 1 # 2).
Proof.
  assert (H : (100 <= Z.abs (-150) <= 1000000000)%Z) by (cbn; lia).
  split; [ exact H | exact (impliedProbability_in_unit_interval (-150)%Z H) ].
Defined.

End PricesAndValue.

(* ------------------------------------------------------------------ *)
(** ** Prices, expected value and stake in binary64 *)

Section PricesAndValueB64.

Import B64.
Local Open Scope float_scope.

(** X2.  For every integer price o with 100 <= |o| <= 100000 the implied
    probability is the inverse of the decimal price up to rounding: in
    binary64 their product is within 2^-52 of 1, and the decimal price is
    above 1. *)
Theorem impliedProbability_inverse_of_decimal : forall o : Z,
  (100 <= Z.abs o <= 100000)%Z ->
  (PrimFloat.abs (americanToImpliedProbability (ofZ o)
                  * americanToDecimalOdds (ofZ o) - 1) <=? 0x1p-52) = true /\
  (1 <? americanToDecimalOdds (ofZ o)) = true.
Proof.
  intros o H. destruct (prices_evaluated o H) as (_ & _ & A & B). now split.
Qed.

Lemma impliedProbability_inverse_of_decimal_witness :
  (100 <= Z.abs 140 <= 100000)%Z /\
  (PrimFloat.abs (americanToImpliedProbability (ofZ 140)
                  * americanToDecimalOdds (ofZ 140) - 1) <=? 0x1p-52) = true /\
  (1 <? americanToDecimalOdds (ofZ 140)) = true.
Proof.
  assert (H : (100 <= Z.abs 140 <= 100000)%Z) by (cbn; lia).
  split; [ exact H | exact (impliedProbability_inverse_of_decimal 140%Z H) ].
Defined.

(** X3.  For every probability p with three decimals, 0.001 to 0.999, and
    every price o that is a multiple of 5 with 100 <= |o| <= 2000, the
    expected value computed is positive when p exceeds the implied
    probability of o by more than 2^-50, and negative when p is below it by
    more than 2^-50. *)
Theorem expectedValue_sign : forall k j : Z,
  (1 <= k <= 999)%Z -> (20 <= Z.abs j <= 400)%Z ->
  let p := thousandth k in
  let o := ofZ (5 * j) in
  ((americanToImpliedProbability o + 0x1p-50 <? p) = true ->
   (0 <? calculateExpectedValue o p) = true) /\
  ((p + 0x1p-50 <? americanToImpliedProbability o) = true ->
   (calculateExpectedValue o p <? 0) = true).
Proof.
  intros k j Hk Hj p o.
  destruct (stakes_evaluated k j Hk Hj) as (_ & _ & _ & _ & _ & A & B).
  split; assumption.
Qed.

Lemma expectedValue_sign_witness :
  (1 <= 500 <= 999)%Z /\ (20 <= Z.abs 28 <= 400)%Z /\
  (americanToImpliedProbability (ofZ (5 * 28)) + 0x1p-50 <? thousandth 500) = true /\
  (0 <? calculateExpectedValue (ofZ (5 * 28)) (thousandth 500)) = true.
Proof.
  assert (Hk : (1 <= 500 <= 999)%Z) by lia.
  assert (Hj : (20 <= Z.abs 28 <= 400)%Z) by (cbn; lia).
  assert (H : (americanToImpliedProbability (ofZ (5 * 28)) + 0x1p-50
               <? thousandth 500) = true) by (vm_compute; reflexivity).
  split; [ exact Hk | split; [ exact Hj | split; [ exact H | ] ] ].
  destruct (expectedValue_sign 500%Z 28%Z Hk Hj) as [K _]. exact (K H).
Defined.

(** X4.  For every probability p with three decimals and every price o
    that is a multiple of 5 with 100 <= |o| <= 2000, the Kelly stake is
    max(0, EV / b) in binary64, with EV the expected value computed for the
    bet and b the decimal price minus 1, and the stake is positive exactly
    when the expected value is. *)
Theorem kellyStake_follows_expected_value : forall k j : Z,
  (1 <= k <= 999)%Z -> (20 <= Z.abs j <= 400)%Z ->
  let p := thousandth k in
  let o := ofZ (5 * j) in
  calculateKellyStake p o
  = Math_max 0 (calculateExpectedValue o p / (americanToDecimalOdds o - 1)) /\
  ((0 <? calculateKellyStake p o) = true
   <-> (0 <? calculateExpectedValue o p) = true).
Proof.
  intros k j Hk Hj p o. split; [ reflexivity | ].
  destruct (stakes_evaluated k j Hk Hj) as (_ & _ & _ & _ & E & _).
  fold p o in E. rewrite E. reflexivity.
Qed.

Lemma kellyStake_follows_expected_value_witness :
  (1 <= 500 <= 999)%Z /\ (20 <= Z.abs 28 <= 400)%Z /\
  calculateKellyStake (thousandth 500) (ofZ (5 * 28))
  = Math_max 0 (calculateExpectedValue (ofZ (5 * 28)) (thousandth 500)
                / (americanToDecimalOdds (ofZ (5 * 28)) - 1)) /\
  ((0 <? calculateKellyStake (thousandth 500) (ofZ (5 * 28))) = true
   <-> (0 <? calculateExpectedValue (ofZ (5 * 28)) (thousandth 500)) = true).
Proof.
  assert (Hk : (1 <= 500 <= 999)%Z) by lia.
  assert (Hj : (20 <= Z.abs 28 <= 400)%Z) by (cbn; lia).
  split; [ exact Hk | split; [ exact Hj | ] ].
  exact (kellyStake_follows_expected_value 500%Z 28%Z Hk Hj).
Defined.

(** X5.  For every probability p with three decimals and every price o
    that is a multiple of 5 with 100 <= |o| <= 2000, the Kelly stake
    computed is at least 0 and strictly below p, hence a fraction of the
    bankroll in [0, 1). *)
Theorem kellyStake_below_probability : forall k j : Z,
  (1 <= k <= 999)%Z -> (20 <= Z.abs j <= 400)%Z ->
  let s := calculateKellyStake (thousandth k) (ofZ (5 * j)) in
  (0 <=? s) = true /\ (s <? thousandth k) = true /\ (s <? 1) = true.
Proof.
  intros k j Hk Hj s.
  destruct (stakes_evaluated k j Hk Hj) as (_ & A & B & C & _).
  auto.
Qed.

Lemma kellyStake_below_probability_witness :
  (1 <= 600 <= 999)%Z /\ (20 <= Z.abs 28 <= 400)%Z /\
  (0 <=? calculateKellyStake (thousandth 600) (ofZ (5 * 28))) = true /\
  (calculateKellyStake (thousandth 600) (ofZ (5 * 28)) <? thousandth 600) = true /\
  (calculateKellyStake (thousandth 600) (ofZ (5 * 28)) <? 1) = true.
Proof.
  assert (Hk : (1 <= 600 <= 999)%Z) by lia.
  assert (Hj : (20 <= Z.abs 28 <= 400)%Z) by (cbn; lia).
  split; [ exact Hk | split; [ exact Hj | ] ].
  exact (kellyStake_below_probability 600%Z 28%Z Hk Hj).
Defined.

(** X22.  The prices +o and -o imply complementary probabilities up to
    rounding: for every integer o with 100 <= o <= 100000 the two implied
    probabilities computed add up to 1 within 2^-52. *)
Theorem impliedProbability_complement : forall o : Z,
  (100 <= o <= 100000)%Z ->
  (PrimFloat.abs (americanToImpliedProbability (ofZ o)
                  + americanToImpliedProbability (ofZ (- o)) - 1)
   <=? 0x1p-52) = true.
Proof.
  apply (forallb_zinterval (fun o =>
           PrimFloat.abs (americanToImpliedProbability (ofZ o)
                          + americanToImpliedProbability (ofZ (- o)) - 1)
           <=? 0x1p-52)).
  vm_compute. reflexivity.
Qed.

Lemma impliedProbability_complement_witness :
  (100 <= 140 <= 100000)%Z /\
  (PrimFloat.abs (americanToImpliedProbability (ofZ 140)
                  + americanToImpliedProbability (ofZ (- 140)) - 1)
   <=? 0x1p-52) = true.
Proof.
  assert (H : (100 <= 140 <= 100000)%Z) by lia.
  split; [ exact H | exact (impliedProbability_complement 140%Z H) ].
Defined.

End PricesAndValueB64.

(* ------------------------------------------------------------------ *)
(** ** The price returned for a probability, in binary64 *)

Section PriceOfProbabilityB64.

Import B64.
Local Open Scope float_scope.

(** X6.  For every probability p with four decimals, 0.0001 to 0.9999,
    the price returned is an integer multiple of 5 of magnitude at least
    100: at most -100 when p > 0.5 and at least +100 otherwise.  No price
    strictly between -100 and +100, and in particular not 0, is returned. *)
Theorem probabilityToAmerican_valid_price : forall k : Z,
  (1 <= k <= 9999)%Z ->
  exists (o : float) (j : Z),
    impliedProbabilityToAmerican (tenThousandth k) = Return o /\
    o = ofZ (5 * j) /\
    ((5000 < k)%Z -> (j <= -20)%Z) /\ ((k <= 5000)%Z -> (20 <= j)%Z) /\
    (100 <=? PrimFloat.abs o) = true.
Proof.
  assert (G : forallb (fun k =>
      match impliedProbabilityToAmerican (tenThousandth k) with
      | Return o =>
          let j := (toZ o / 5)%Z in
          Leibniz.eqb o (ofZ (5 * j))
          && (if (5000 <? k)%Z then (j <=? -20)%Z else (20 <=? j)%Z)
          && (100 <=? PrimFloat.abs o)
      | Throw _ => false
      end) (zinterval 1 9999) = true) by (vm_compute; reflexivity).
  intros k Hk. pose proof (forallb_zinterval _ _ _ G k Hk) as C.
  cbv beta in C.
  destruct (impliedProbabilityToAmerican (tenThousandth k)) as [ o | ];
    [ | discriminate C ].
  cbv zeta in C. set (j := (toZ o / 5)%Z) in *.
  apply andb_prop in C. destruct C as [C M].
  apply andb_prop in C. destruct C as [E S].
  apply Leibniz.eqb_spec in E.
  exists o, j. split; [ reflexivity | ]. split; [ exact E | ].
  split; [ | split; [ | exact M ] ]; intro H.
  - destruct (5000 <? k)%Z eqn:B; [ now apply Z.leb_le | ].
    apply Z.ltb_ge in B. lia.
  - destruct (5000 <? k)%Z eqn:B; [ | now apply Z.leb_le ].
    apply Z.ltb_lt in B. lia.
Qed.

Lemma probabilityToAmerican_valid_price_witness :
  (1 <= 4000 <= 9999)%Z /\
  exists (o : float) (j : Z),
    impliedProbabilityToAmerican (tenThousandth 4000) = Return o /\
    o = ofZ (5 * j) /\
    ((5000 < 4000)%Z -> (j <= -20)%Z) /\ ((4000 <= 5000)%Z -> (20 <= j)%Z) /\
    (100 <=? PrimFloat.abs o) = true.
Proof.
  assert (H : (1 <= 4000 <= 9999)%Z) by lia.
  split; [ exact H | exact (probabilityToAmerican_valid_price 4000%Z H) ].
Defined.

(** X7.  Probability to price and back loses at most 0.00625 = 1/160: for
    every probability p with four decimals, 0.0001 to 0.9999, the implied
    probability of the price returned for p differs from p by at most
    0.00625, as computed in binary64. *)
Theorem probability_round_trip_error : forall k : Z,
  (1 <= k <= 9999)%Z ->
  exists o : float,
    impliedProbabilityToAmerican (tenThousandth k) = Return o /\
    (PrimFloat.abs (americanToImpliedProbability o - tenThousandth k)
     <=? 0.00625) = true.
Proof.
  assert (G : forallb (fun k =>
      match impliedProbabilityToAmerican (tenThousandth k) with
      | Return o =>
          PrimFloat.abs (americanToImpliedProbability o - tenThousandth k)
          <=? 0.00625
      | Throw _ => false
      end) (zinterval 1 9999) = true) by (vm_compute; reflexivity).
  intros k Hk. pose proof (forallb_zinterval _ _ _ G k Hk) as C.
  cbv beta in C.
  destruct (impliedProbabilityToAmerican (tenThousandth k)) as [ o | ];
    [ | discriminate C ].
  exists o. split; [ reflexivity | exact C ].
Qed.

Lemma probability_round_trip_error_witness :
  (1 <= 5700 <= 9999)%Z /\
  exists o : float,
    impliedProbabilityToAmerican (tenThousandth 5700) = Return o /\
    (PrimFloat.abs (americanToImpliedProbability o - tenThousandth 5700)
     <=? 0.00625) = true.
Proof.
  assert (H : (1 <= 5700 <= 9999)%Z) by lia.
  split; [ exact H | exact (probability_round_trip_error 5700%Z H) ].
Defined.

End PriceOfProbabilityB64.

(* ------------------------------------------------------------------ *)
(** ** The value analysis of a game *)

Section ValueAnalysis.

Import OddsUtils OddsService SimulationService.

Lemma findBestValue_returns (l : list (string * num)) :
  l <> [] -> exists r, findBestValue l = Return r.
Proof.
  intro H. unfold findBestValue.
  pose proof (sort_perm snd l) as P.
  destruct (sort (fun a b => sub (snd b) (snd a)) l) as [ | [k e] tl ].
  - apply Permutation_nil in P. contradiction.
  - destruct (le e (double 0.02%float)); eexists; reflexivity.
Qed.

(** X8.  [findBestValue] throws exactly on the empty mapping: with at
    least one entry it returns, whatever the numbers are (NaN and the
    infinities included). *)
Theorem findBestValue_throws_iff_empty : forall l : list (string * num),
  throws (findBestValue l) <-> l = [].
Proof.
  intro l. split.
  - intros [m Hm]. destruct l as [ | x xs ]; [ reflexivity | exfalso ].
    destruct (findBestValue_returns (x :: xs)) as [r Hr]; [ discriminate | ].
    rewrite Hr in Hm. discriminate Hm.
  - intros ->. eexists. reflexivity.
Qed.

Lemma findBestValue_finite (l : list (string * num)) :
  l <> [] -> finite_keys snd l ->
  exists (i : nat) (k : string) (e : Q),
    first_maximum snd l i (k, Fin e) /\
    findBestValue l
    = if le (Fin e) (double 0.02%float) then Return None
      else Return (Some {| type := k; typeName := typeNames k;
                           OddsService.edge := Fin e;
                           valueType := determineValueType (Fin e) |}).
Proof.
  intros Hne F.
  destruct (sort_head snd l F Hne) as (i & [k v] & tl & Hmax & Hs).
  assert (Fv : is_finite v = true).
  { destruct Hmax as (Hi & _). unfold finite_keys in F.
    rewrite Forall_forall in F. apply (F (k, v)). eapply nth_error_In, Hi. }
  destruct v as [ | | | e ]; try discriminate.
  exists i, k, e. split; [ exact Hmax | ].
  unfold findBestValue. rewrite Hs. reflexivity.
Qed.

Lemma _calculateEdge_fin (m s : num) :
  is_finite m = true -> is_finite s = true ->
  is_finite (_calculateEdge m s) = true.
Proof.
  destruct m as [ | | | a ]; try discriminate.
  destruct s as [ | | | b ]; try discriminate. intros _ _.
  destruct (_calculateEdge_finite a b) as [r ->]. reflexivity.
Qed.

Lemma marketEdges_finite (m s : Odds) :
  finite_odds m -> finite_odds s -> finite_keys snd (marketEdges m s).
Proof.
  intros (A & B & C & D) (A' & B' & C' & D').
  repeat constructor; cbn [snd]; now apply _calculateEdge_fin.
Qed.

Lemma analyzeBettingValue_unfold (m s : Odds) :
  analyzeBettingValue (Obj m) (Obj s)
  = bind (findBestValue (marketEdges m s)) (fun best =>
    Return (Some
      {| homeValue := determineValueType
                        (_calculateEdge (homeMoneyline m) (homeMoneyline s));
         awayValue := determineValueType
                        (_calculateEdge (awayMoneyline m) (awayMoneyline s));
         overValue := determineValueType
                        (_calculateEdge (overOdds m) (overOdds s));
         underValue := determineValueType
                         (_calculateEdge (underOdds m) (underOdds s));
         bestValue := best |})).
Proof. reflexivity. Qed.

Lemma determineValueType_fair (e : Q) :
  - (2 # 100) <= e -> e <= 2 # 100 -> determineValueType (Fin e) = "fair".
Proof.
  intros L U. unfold determineValueType.
  destruct double_thresholds as (-> & -> & -> & ->).
  destruct thresholds_near as (A & _ & B & _).
  split_gt e t005; [ lra | ].
  split_gt e t002; [ lra | ].
  split_lt e (- t005); [ lra | ].
  split_lt e (- t002); [ lra | reflexivity ].
Qed.

Lemma typeNames_of_side (k : string) :
  In k ["home"; "away"; "over"; "under"] -> exists n, typeNames k = Own n.
Proof.
  intros [<- | [<- | [<- | [<- | []]]]]; eexists; reflexivity.
Qed.

Lemma determineValueType_above (e : Q) :
  t002 < e ->
  determineValueType (Fin e) = "value" \/ determineValueType (Fin e) = "strong_value".
Proof.
  intro H. unfold determineValueType.
  destruct double_thresholds as (-> & -> & _).
  split_gt e t005; [ now right | ].
  split_gt e t002; [ now left | lra ].
Qed.

(** X9.  For a market and a simulation with finite prices whose four
    edges all differ from 0.02 by more than 10^-9, [analyzeBettingValue]
    returns an assessment.  Its best value is null exactly when none of the
    four edges exceeds 0.02; otherwise it names one of the four sides,
    carries that side's edge, which exceeds 0.02 and is the greatest of the
    four, is rated value or strong_value, and has a display name of its
    own. *)
Theorem analyzeBettingValue_best_value : forall m s : Odds,
  finite_odds m -> finite_odds s ->
  (forall k e, In (k, e) (marketEdges m s) ->
               1 # 1000000000 < Qabs (valueOf e - (2 # 100))) ->
  exists a : Assessment,
    analyzeBettingValue (Obj m) (Obj s) = Return (Some a) /\
    (bestValue a = None <->
     forall k e, In (k, e) (marketEdges m s) -> valueOf e <= 2 # 100) /\
    (forall b, bestValue a = Some b ->
       In (type b, OddsService.edge b) (marketEdges m s) /\
       2 # 100 < valueOf (OddsService.edge b) /\
       (forall k e, In (k, e) (marketEdges m s) ->
                    valueOf e <= valueOf (OddsService.edge b)) /\
       (valueType b = "value" \/ valueType b = "strong_value") /\
       exists n, typeName b = Own n).
Proof.
  intros m s Fm Fs Away.
  assert (Hne : marketEdges m s <> []) by discriminate.
  destruct (findBestValue_finite _ Hne (marketEdges_finite m s Fm Fs))
    as (i & k & e & (Hi & Hmax & _) & Hf).
  assert (Hin : In (k, Fin e) (marketEdges m s)) by (eapply nth_error_In, Hi).
  assert (Hall : forall k' e', In (k', e') (marketEdges m s) -> valueOf e' <= e).
  { intros k' e' H. apply In_nth_error in H. destruct H as [j Hj].
    apply (Hmax j (k', e') Hj). }
  assert (Side : e < (2 # 100) - (1 # 1000000000)
                 \/ (2 # 100) + (1 # 1000000000) < e).
  { specialize (Away k (Fin e) Hin). cbn [valueOf] in Away.
    destruct (Qlt_le_dec e (2 # 100)) as [K | K].
    - left. rewrite Qabs_neg in Away by lra. lra.
    - right. rewrite Qabs_pos in Away by lra. lra. }
  destruct thresholds_near as (_ & _ & A2 & B2).
  rewrite analyzeBettingValue_unfold, Hf.
  destruct double_thresholds as (_ & -> & _).
  split_le e t002; cbn [bind]; eexists; (split; [ reflexivity | ]);
    cbn [bestValue]; split.
  - split; [ | reflexivity ]. intros _ k' e' Hk. specialize (Hall k' e' Hk).
    destruct Side; lra.
  - intros b Hb. discriminate Hb.
  - split; [ discriminate | ]. intro K. specialize (K k (Fin e) Hin).
    cbn [valueOf] in K. lra.
  - intros b Hb. injection Hb as <-.
    cbn [type OddsService.edge valueType typeName valueOf].
    split; [ exact Hin | ]. split; [ lra | ].
    split; [ exact Hall | ]. split; [ now apply determineValueType_above | ].
    apply typeNames_of_side.
    unfold marketEdges in Hin. cbn [In] in Hin |- *.
    destruct Hin as [K | [K | [K | [K | []]]]]; injection K as <- _; auto.
Qed.

Lemma analyzeBettingValue_best_value_witness :
  let m := mkOdds (Fin (-150)) (Fin 130) (Fin (-110)) (Fin (-110)) in
  let s := mkOdds (Fin (-210)) (Fin 175) (Fin (-105)) (Fin (-115)) in
  finite_odds m /\ finite_odds s /\
  (forall k e, In (k, e) (marketEdges m s) ->
               1 # 1000000000 < Qabs (valueOf e - (2 # 100))) /\
  exists a : Assessment,
    analyzeBettingValue (Obj m) (Obj s) = Return (Some a) /\
    (bestValue a = None <->
     forall k e, In (k, e) (marketEdges m s) -> valueOf e <= 2 # 100) /\
    (forall b, bestValue a = Some b ->
       In (type b, OddsService.edge b) (marketEdges m s) /\
       2 # 100 < valueOf (OddsService.edge b) /\
       (forall k e, In (k, e) (marketEdges m s) ->
                    valueOf e <= valueOf (OddsService.edge b)) /\
       (valueType b = "value" \/ valueType b = "strong_value") /\
       exists n, typeName b = Own n).
Proof.
  intros m s.
  assert (Fm : finite_odds m) by (repeat split).
  assert (Fs : finite_odds s) by (repeat split).
  assert (Away : forall k e, In (k, e) (marketEdges m s) ->
                   1 # 1000000000 < Qabs (valueOf e - (2 # 100))).
  { intros k e [K | [K | [K | [K | []]]]]; injection K as _ <-; reflexivity. }
  split; [ exact Fm | split; [ exact Fs | split; [ exact Away | ] ] ].
  exact (analyzeBettingValue_best_value m s Fm Fs Away).
Defined.

Lemma _calculateEdge_self (a : Q) :
  exists p : Q, _calculateEdge (Fin a) (Fin a) = Fin (p + - p).
Proof.
  unfold _calculateEdge. destruct (oddsToProb_same (Fin a)) as [_ ->].
  destruct (americanToImpliedProbability_finite a) as [p ->].
  exists p. reflexivity.
Qed.

(** X10.  When the simulation prices a game exactly as the market does
    (finite prices), every side is rated fair and no best value is
    reported. *)
Theorem analyzeBettingValue_no_edge : forall m : Odds,
  finite_odds m ->
  analyzeBettingValue (Obj m) (Obj m)
  = Return (Some {| homeValue := "fair"; awayValue := "fair";
                    overValue := "fair"; underValue := "fair";
                    bestValue := None |}).
Proof.
  intros [h a o u] (Fh & Fa & Fo & Fu). cbn in Fh, Fa, Fo, Fu.
  destruct h as [ | | | h ]; try discriminate.
  destruct a as [ | | | a ]; try discriminate.
  destruct o as [ | | | o ]; try discriminate.
  destruct u as [ | | | u ]; try discriminate.
  set (m := mkOdds (Fin h) (Fin a) (Fin o) (Fin u)).
  assert (Hne : marketEdges m m <> []) by discriminate.
  assert (Fm : finite_odds m) by (repeat split).
  destruct (findBestValue_finite _ Hne (marketEdges_finite m m Fm Fm))
    as (i & k & e & (Hi & _ & _) & Hf).
  apply nth_error_In in Hi.
  rewrite analyzeBettingValue_unfold, Hf. clear Hf Hne Fm.
  unfold marketEdges in Hi. subst m.
  cbn [homeMoneyline awayMoneyline overOdds underOdds].
  cbn [homeMoneyline awayMoneyline overOdds underOdds In] in Hi.
  destruct (_calculateEdge_self h) as [ph Eh].
  destruct (_calculateEdge_self a) as [pa Ea].
  destruct (_calculateEdge_self o) as [po Eo].
  destruct (_calculateEdge_self u) as [pu Eu].
  rewrite Eh, Ea, Eo, Eu in *.
  rewrite (determineValueType_fair (ph + - ph)) by lra.
  rewrite (determineValueType_fair (pa + - pa)) by lra.
  rewrite (determineValueType_fair (po + - po)) by lra.
  rewrite (determineValueType_fair (pu + - pu)) by lra.
  assert (Z : e == 0).
  { destruct Hi as [K | [K | [K | [K | []]]]]; injection K as _ <-; ring. }
  destruct double_thresholds as (_ & -> & _).
  destruct thresholds_near as (_ & _ & B & _).
  split_le e t002; [ reflexivity | lra ].
Qed.

Lemma analyzeBettingValue_no_edge_witness :
  let m := mkOdds (Fin (-150)) (Fin 130) (Fin (-110)) (Fin (-110)) in
  finite_odds m /\
  analyzeBettingValue (Obj m) (Obj m)
  = Return (Some {| homeValue := "fair"; awayValue := "fair";
                    overValue := "fair"; underValue := "fair";
                    bestValue := None |}).
Proof.
  intro m.
  assert (Fm : finite_odds m) by (repeat split).
  split; [ exact Fm | exact (analyzeBettingValue_no_edge m Fm) ].
Defined.

Lemma serviceName_rating (e : num) :
  serviceName (_getValueRating e) = determineValueType e.
Proof.
  unfold _getValueRating, determineValueType.
  destruct (gt e (double 0.05%float)); [ reflexivity | ].
  destruct (gt e (double 0.02%float)); [ reflexivity | ].
  destruct (lt e (double (-0.05)%float)); [ reflexivity | ].
  destruct (lt e (double (-0.02)%float)); reflexivity.
Qed.

(** X11.  The two entry points agree.  For any market odds and any
    simulation carrying betting insights (whatever the numbers),
    [analyzeBettingValue(market, insights)] and
    [analyzeValue(simulation, market)] both return a result; the second
    reports for each side the edge computed from the two prices, and its
    rating is the first one's rating under the renaming strong ->
    strong_value, negative -> below, neutral -> fair. *)
Theorem analysis_entry_points_agree : forall m s : Odds,
  exists (a : Assessment) (b : Analysis),
    analyzeBettingValue (Obj m) (Obj s) = Return (Some a) /\
    analyzeValue (Obj (mkSimulation (Obj s))) (Obj m) = Return (Some b) /\
    SimulationService.edge (home b)
      = _calculateEdge (homeMoneyline m) (homeMoneyline s) /\
    SimulationService.edge (away b)
      = _calculateEdge (awayMoneyline m) (awayMoneyline s) /\
    SimulationService.edge (over b)
      = _calculateEdge (overOdds m) (overOdds s) /\
    SimulationService.edge (under b)
      = _calculateEdge (underOdds m) (underOdds s) /\
    homeValue a = serviceName (rating (home b)) /\
    awayValue a = serviceName (rating (away b)) /\
    overValue a = serviceName (rating (over b)) /\
    underValue a = serviceName (rating (under b)).
Proof.
  intros m s.
  destruct (findBestValue_returns (marketEdges m s)) as [r Hr]; [ discriminate | ].
  eexists. eexists.
  split; [ rewrite analyzeBettingValue_unfold, Hr; reflexivity | ].
  split; [ reflexivity | ].
  cbn [home away over under SimulationService.edge rating rate
       homeValue awayValue overValue underValue].
  rewrite !serviceName_rating. repeat split.
Qed.

Lemma rating_of_opposite (x y : Q) :
  y == - x -> _getValueRating (Fin y) = mirror (_getValueRating (Fin x)).
Proof.
  intro E. unfold _getValueRating.
  destruct double_thresholds as (-> & -> & -> & ->).
  assert (O : t002 < t005) by reflexivity.
  assert (P : 0 < t002) by reflexivity.
  split_gt x t005; [ | split_gt x t002;
    [ | split_lt x (- t005); [ | split_lt x (- t002) ] ] ];
  (split_gt y t005; [ | split_gt y t002;
    [ | split_lt y (- t005); [ | split_lt y (- t002) ] ] ]);
  try reflexivity; lra.
Qed.

(** X12.  Exchanging the market price and the simulated price (both
    finite) negates the edge, and the rating becomes the opposite one:
    strong and poor are exchanged, value and negative are exchanged, neutral
    stays. *)
Theorem edge_rating_antisymmetric : forall m s : Q,
  exists e e' : Q,
    _calculateEdge (Fin m) (Fin s) = Fin e /\
    _calculateEdge (Fin s) (Fin m) = Fin e' /\
    e' == - e /\
    _getValueRating (Fin e') = mirror (_getValueRating (Fin e)).
Proof.
  intros m s. unfold _calculateEdge.
  destruct (oddsToProb_same (Fin m)) as [_ ->].
  destruct (oddsToProb_same (Fin s)) as [_ ->].
  destruct (americanToImpliedProbability_finite m) as [pm ->].
  destruct (americanToImpliedProbability_finite s) as [ps ->].
  exists (ps + - pm), (pm + - ps).
  assert (E : pm + - ps == - (ps + - pm)) by ring.
  repeat split; [ exact E | ]. now apply rating_of_opposite.
Qed.

End ValueAnalysis.

(* ------------------------------------------------------------------ *)
(** ** The generated prop list *)

Section GeneratedProps.

Import GameService MockProps.

Variable rand : nat -> Draw.

Lemma drawValue_range (d : Draw) : 0 <= drawValue d /\ drawValue d < 1.
Proof.
  destruct d as [[ | n ] d]; unfold drawValue, Qle, Qlt; cbn; lia.
Qed.

Lemma random_range (i : nat) :
  exists r : Q, random rand i = (Fin r, S i) /\ 0 <= r /\ r < 1.
Proof.
  exists (drawValue (rand i)). split; [ reflexivity | apply drawValue_range ].
Qed.

(** The integer part of a scaled draw. *)
Lemma floor_scaled (r : Q) (n : Z) :
  0 <= r -> r < 1 -> (0 < n)%Z ->
  (0 <= Qfloor (r * inject_Z n) < n)%Z.
Proof.
  intros H0 H1 Hn.
  assert (Pn : 0 < inject_Z n) by (rewrite Zlt_Qlt in Hn; exact Hn).
  split.
  - rewrite <- (Qfloor_Z 0). apply Qfloor_resp_le.
    change (inject_Z 0) with 0. nra.
  - rewrite Zlt_Qlt. pose proof (Qfloor_le (r * inject_Z n)) as F.
    set (k := inject_Z (Qfloor (r * inject_Z n))) in *. nra.
Qed.

Lemma element_propTypes (r : Q) :
  0 <= r -> r < 1 ->
  In (element propTypes
        (floor (mul (Fin r) (Fin (inject_Z (Z.of_nat (length propTypes)))))))
     propTypes.
Proof.
  intros H0 H1. cbn [mul floor element].
  rewrite Qfloor_Z.
  pose proof (floor_scaled r 5 H0 H1 eq_refl) as [L U].
  change (inject_Z (Z.of_nat (length propTypes))) with (inject_Z 5).
  set (k := Qfloor (r * inject_Z 5)) in *.
  assert (K : (Z.to_nat k < 5)%nat) by lia.
  destruct (Z.to_nat k) as [ | [ | [ | [ | [ | n ] ] ] ] ]; cbn; auto 6. lia.
Qed.

Lemma iterations_propsToAdd (r : Q) :
  0 <= r -> r < 1 ->
  let n := iterations (add (floor (mul (Fin r) (Fin 2))) (Fin 1)) in
  n = 1%nat \/ n = 2%nat.
Proof.
  intros H0 H1. cbn [mul floor add iterations].
  pose proof (floor_scaled r 2 H0 H1 eq_refl) as [L U].
  change (inject_Z 2) with 2 in *.
  set (k := Qfloor (r * 2)) in *.
  assert (E : Qceiling (inject_Z k + 1) = (k + 1)%Z).
  { change 1 with (inject_Z 1). rewrite <- inject_Z_plus. apply Qceiling_Z. }
  rewrite E. lia.
Qed.

(** Rounding to one decimal stays between two bounds that have one
    decimal. *)
Lemma toFixedValue_1_between (x : Q) (a b : Z) :
  (0 <= a)%Z -> inject_Z a / 10 <= x -> x <= inject_Z b / 10 ->
  exists l : Q, toFixedValue 1 (Fin x) = Fin l /\
                inject_Z a / 10 <= l /\ l <= inject_Z b / 10.
Proof.
  intros Ha L U. unfold toFixedValue.
  change (inject_Z (10 ^ Z.of_nat 1)) with 10.
  assert (D : forall y : Q, y / 10 == y * (1 # 10)) by (intro; reflexivity).
  rewrite D in L, U.
  assert (Pa : 0 <= inject_Z a) by (rewrite Zle_Qle in Ha; exact Ha).
  assert (B : Qle_bool 0 x = true) by (apply Qle_bool_iff; lra).
  rewrite B. eexists. split; [ reflexivity | ].
  assert (Ka : (a <= Qfloor (x * 10 + (1 # 2)))%Z).
  { rewrite <- (Qfloor_Z a). apply Qfloor_resp_le. lra. }
  assert (Kb : (Qfloor (x * 10 + (1 # 2)) <= b)%Z).
  { rewrite <- (Qfloor_half b (inject_Z b + (1 # 2))) by reflexivity.
    apply Qfloor_resp_le. lra. }
  rewrite Zle_Qle in Ka, Kb.
  set (k := inject_Z (Qfloor (x * 10 + (1 # 2)))) in *.
  rewrite !D. split; lra.
Qed.

(** The confidence and the side drawn for a candidate. *)
Lemma confidence_drawn (r3 r4 : Q) (j : nat) :
  0 <= r3 -> r3 < 1 ->
  let overConfidence := add (lit 4 10) (mul (Fin r3) (lit 4 10)) in
  let side :=
    if gt overConfidence (lit 6 10) then ("over", j)
    else if lt overConfidence (lit 4 10) then ("under", j)
    else (if gt (Fin r4) (lit 5 10) then "over" else "under", S j) in
  (fst side = "over" \/ fst side = "under") /\
  exists c : Q,
    (if String.eqb (fst side) "over" then overConfidence
     else sub (Fin 1) overConfidence) = Fin c /\
    4 # 10 <= c /\ c < 8 # 10 /\ (fst side = "under" -> c <= 6 # 10).
Proof.
  intros H0 H1. cbn [add mul lit sub neg]. unfold lit.
  split_gt ((4 # 10) + r3 * (4 # 10)) (6 # 10).
  - cbn [fst]. split; [ now left | ]. eexists. cbn [String.eqb].
    split; [ reflexivity | ]. repeat split; intros; first [ lra | discriminate ].
  - split_lt ((4 # 10) + r3 * (4 # 10)) (4 # 10); [ nra | ].
    split_gt r4 (5 # 10); cbn [fst].
    + split; [ now left | ]. eexists. split; [ reflexivity | ].
      repeat split; intros; lra.
    + split; [ now right | ]. eexists. split; [ reflexivity | ].
      repeat split; intros; lra.
Qed.

Lemma generateProp_generated (player : Player) (i : nat) :
  In (name player) ["Player 1"; "Player 2"; "Player 3"; "Player 4"] ->
  generated (fst (generateProp rand player i)) /\
  playerName (fst (generateProp rand player i)) = name player.
Proof.
  intro Hn. unfold generateProp, random.
  destruct (drawValue_range (rand i)) as [A0 A1].
  pose proof (element_propTypes _ A0 A1) as Ht.
  set (propType := element propTypes _) in *.
  destruct (drawValue_range (rand (S i))) as [B0 B1].
  set (r2 := drawValue (rand (S i))) in *.
  assert (Hline : exists (l : Q) (i2 : nat),
            (if String.eqb propType "strikeouts"
             then (add (lit 45 10) (mul (Fin r2) (Fin 3)), S (S i))
             else if String.eqb propType "home_run" then (lit 5 10, S i)
             else (add (lit 15 10) (Fin r2), S (S i)))
            = (Fin l, i2) /\
            exists l' : Q, toFixedValue 1 (Fin l) = Fin l' /\
            (propType = "home_run" -> l' == 5 # 10) /\
            (propType = "strikeouts" -> 45 # 10 <= l' <= 75 # 10) /\
            (propType <> "home_run" -> propType <> "strikeouts" ->
             15 # 10 <= l' <= 25 # 10)).
  { destruct (String.eqb propType "strikeouts") eqn:Es;
      [ | destruct (String.eqb propType "home_run") eqn:Eh ].
    - apply String.eqb_eq in Es.
      eexists. eexists. split; [ reflexivity | ].
      destruct (toFixedValue_1_between ((45 # 10) + r2 * 3) 45 75)
        as (l' & El & L & U); [ lia | | | ].
      + change (inject_Z 45 / 10) with (45 # 10). lra.
      + change (inject_Z 75 / 10) with (75 # 10). lra.
      + exists l'. split; [ exact El | ].
        change (inject_Z 45 / 10) with (45 # 10) in L.
        change (inject_Z 75 / 10) with (75 # 10) in U.
        repeat split; intros; try lra; congruence.
    - apply String.eqb_eq in Eh. apply String.eqb_neq in Es.
      eexists. eexists. split; [ reflexivity | ].
      eexists. split; [ reflexivity | ].
      repeat split; intros; try congruence; try reflexivity.
    - apply String.eqb_neq in Eh. apply String.eqb_neq in Es.
      eexists. eexists. split; [ reflexivity | ].
      destruct (toFixedValue_1_between ((15 # 10) + r2) 15 25)
        as (l' & El & L & U); [ lia | | | ].
      + change (inject_Z 15 / 10) with (15 # 10). lra.
      + change (inject_Z 25 / 10) with (25 # 10). lra.
      + exists l'. split; [ exact El | ].
        change (inject_Z 15 / 10) with (15 # 10) in L.
        change (inject_Z 25 / 10) with (25 # 10) in U.
        repeat split; intros; try lra; congruence. }
  destruct Hline as (l & i2 & -> & l' & El & Lh & Ls & Lo).
  destruct (drawValue_range (rand i2)) as [C0 C1].
  pose proof (confidence_drawn (drawValue (rand i2))
                (drawValue (rand (S i2))) (S i2) C0 C1) as K.
  cbv zeta in K.
  destruct (if gt (add (lit 4 10) (mul (Fin (drawValue (rand i2))) (lit 4 10)))
                  (lit 6 10)
            then ("over", S i2)
            else if lt (add (lit 4 10) (mul (Fin (drawValue (rand i2))) (lit 4 10)))
                       (lit 4 10)
                 then ("under", S i2)
                 else (if gt (Fin (drawValue (rand (S i2)))) (lit 5 10)
                       then "over" else "under", S (S i2)))
    as [rec i4].
  cbn [fst] in K |- *. destruct K as (Hrec & c & Ec & Hc0 & Hc1 & Hcu).
  split; [ | reflexivity ].
  unfold generated.
  cbn [playerName betType recommendation confidence line].
  split; [ exact Hn | ]. split; [ exact Ht | ]. split; [ exact Hrec | ].
  split.
  - exists c. repeat split; auto. lra.
  - exists l'. auto.
Qed.

Lemma addProps_spec (n : nat) (player : Player) :
  In (name player) ["Player 1"; "Player 2"; "Player 3"; "Player 4"] ->
  forall i : nat,
    length (fst (addProps rand n player i)) = n /\
    Forall (fun p => generated p /\ playerName p = name player)
           (fst (addProps rand n player i)).
Proof.
  intro Hn. induction n as [ | n IH ]; intro i; cbn [addProps].
  - split; [ reflexivity | constructor ].
  - pose proof (generateProp_generated player i Hn) as G.
    destruct (generateProp rand player i) as [p j]. cbn [fst] in G.
    specialize (IH j). destruct (addProps rand n player j) as [ps k].
    cbn [fst length] in *. destruct IH as [L F].
    split; [ now rewrite L | now constructor ].
Qed.

Lemma forPlayer_spec (player : Player) (i : nat) :
  In (name player) ["Player 1"; "Player 2"; "Player 3"; "Player 4"] ->
  (1 <= length (fst (forPlayer rand player i)) <= 2)%nat /\
  Forall (fun p => generated p /\ playerName p = name player)
         (fst (forPlayer rand player i)).
Proof.
  intro Hn. unfold forPlayer, random.
  destruct (drawValue_range (rand i)) as [A0 A1].
  pose proof (iterations_propsToAdd _ A0 A1) as K. cbv zeta in K.
  destruct (addProps_spec
              (iterations (add (floor (mul (Fin (drawValue (rand i))) (Fin 2))) (Fin 1)))
              player Hn (S i)) as [L F].
  split; [ rewrite L; lia | exact F ].
Qed.

Lemma of_player_block (n : string) (player : Player) (l : list PropBet) :
  Forall (fun p => generated p /\ playerName p = name player) l ->
  of_player n l = if String.eqb (name player) n then l else [].
Proof.
  intro F. induction F as [ | p ps [_ E] _ IH ].
  - now destruct (String.eqb (name player) n).
  - unfold of_player in *. cbn [filter]. rewrite E, IH.
    now destruct (String.eqb (name player) n).
Qed.

Lemma forEachPlayer_spec (ps : list Player) :
  Forall (fun pl => In (name pl) ["Player 1"; "Player 2"; "Player 3"; "Player 4"]) ps ->
  NoDup (map name ps) ->
  forall i : nat,
    let out := fst (forEachPlayer rand ps i) in
    (length ps <= length out <= 2 * length ps)%nat /\
    Forall generated out /\
    (forall n, In n (map name ps) -> (1 <= length (of_player n out) <= 2)%nat) /\
    (forall n, ~ In n (map name ps) -> of_player n out = []).
Proof.
  intros Hn Hd. induction Hn as [ | pl rest Hpl Hrest IH ]; intro i; cbn [forEachPlayer].
  - cbn. repeat split; try lia; try constructor; try (intros n []).
  - inversion Hd as [ | ? ? Hnotin Hd' ]; subst.
    destruct (forPlayer_spec pl i Hpl) as [L F].
    destruct (forPlayer rand pl i) as [props j]. cbn [fst] in L, F.
    specialize (IH Hd' j). cbv zeta in IH.
    destruct (forEachPlayer rand rest j) as [more k]. cbn [fst] in IH |- *.
    destruct IH as (Lr & Fr & Cin & Cout).
    assert (B : forall n, of_player n (props ++ more)
                     = (if String.eqb (name pl) n then props else [])
                       ++ of_player n more).
    { intro n. unfold of_player at 1. rewrite filter_app.
      fold (of_player n props). fold (of_player n more).
      now rewrite (of_player_block n pl props F). }
    split; [ rewrite length_app; cbn [length]; lia | ].
    split.
    { apply Forall_app. split; [ | exact Fr ].
      eapply Forall_impl; [ | exact F ]. cbn. tauto. }
    split.
    + intros n Hin. rewrite B, length_app. cbn [map In] in Hin.
      destruct (String.eqb (name pl) n) eqn:E.
      * apply String.eqb_eq in E. subst n.
        rewrite (Cout (name pl) Hnotin). cbn [length]. lia.
      * apply String.eqb_neq in E. destruct Hin as [Hin | Hin]; [ contradiction | ].
        specialize (Cin n Hin). cbn [length]. lia.
    + intros n Hnot. rewrite B. cbn [map In] in Hnot.
      destruct (String.eqb (name pl) n) eqn:E.
      * apply String.eqb_eq in E. tauto.
      * rewrite Cout by tauto. reflexivity.
Qed.

Lemma players_named (homeTeam awayTeam : string) :
  Forall (fun pl => In (name pl) ["Player 1"; "Player 2"; "Player 3"; "Player 4"])
         (players homeTeam awayTeam) /\
  NoDup (map name (players homeTeam awayTeam)) /\
  map name (players homeTeam awayTeam)
  = ["Player 1"; "Player 2"; "Player 3"; "Player 4"].
Proof.
  split; [ | split; [ | reflexivity ] ].
  - repeat (apply Forall_cons; [ cbn; auto 6 | ]). apply Forall_nil.
  - cbn. repeat (apply NoDup_cons; [ cbn; intuition discriminate | ]).
    apply NoDup_nil.
Qed.

Lemma filter_perm_length {A : Type} (f : A -> bool) (l l' : list A) :
  Permutation l l' -> length (filter f l) = length (filter f l').
Proof.
  intro P. induction P as [ | x l l' P IH | x y l | l l' l'' P1 IH1 P2 IH2 ];
    cbn [filter].
  - reflexivity.
  - destruct (f x); cbn [length]; congruence.
  - destruct (f x), (f y); reflexivity.
  - congruence.
Qed.

Lemma generated_finite (l : list PropBet) :
  Forall generated l -> finite_keys confidence l.
Proof.
  intro F. unfold finite_keys. eapply Forall_impl; [ | exact F ].
  cbn. intros p (_ & _ & _ & (c & -> & _) & _). reflexivity.
Qed.



(** X14.  Whatever [Math.random] returns, the list that
    [_generateMockPropBets] returns holds between 4 and 8 candidates, one or
    two for each of the four players, in descending order of confidence. *)
Theorem generated_props_shape :
  forall (homeTeam awayTeam : string) (i : nat),
    let out := fst (_generateMockPropBets rand homeTeam awayTeam i) in
    (4 <= length out <= 8)%nat /\
    (1 <= length (of_player "Player 1" out) <= 2)%nat /\
    (1 <= length (of_player "Player 2" out) <= 2)%nat /\
    (1 <= length (of_player "Player 3" out) <= 2)%nat /\
    (1 <= length (of_player "Player 4" out) <= 2)%nat /\
    descending confidence out.
Proof.
  intros h a i. unfold _generateMockPropBets.
  destruct (players_named h a) as (Hn & Hd & Hm).
  destruct (forEachPlayer_spec _ Hn Hd i) as (L & F & C & _).
  rewrite Hm in C.
  destruct (forEachPlayer rand (players h a) i) as [props j].
  cbn [fst] in *. change (length (players h a)) with 4%nat in L.
  pose proof (sort_perm confidence props) as P.
  fold (sortByConfidence props) in P.
  assert (Cp : forall n, length (of_player n (sortByConfidence props))
                         = length (of_player n props))
    by (intro n; now apply filter_perm_length).
  split; [ rewrite (Permutation_length P); lia | ].
  rewrite !Cp.
  split; [ apply C; cbn; auto | ].
  split; [ apply C; cbn; auto | ].
  split; [ apply C; cbn; auto | ].
  split; [ apply C; cbn; auto 6 | ].
  apply sort_descending. now apply generated_finite.
Qed.

End GeneratedProps.

(* ------------------------------------------------------------------ *)
(** ** Grouping the prop list by bet type *)

Section Grouping.

Import GameService PropBetsList.

(** The group of the own property [k], as the candidates of that type. *)
Let group_of (k : string) (l : list PropBet) : option (list PropBet) :=
  match of_type k l with
  | [] => None
  | g => Some g
  end.

Lemma own_push (k k' : string) (bet : PropBet) (groups : Groups) :
  own k (push k' bet groups)
  = if String.eqb k' k then option_map (fun g => g ++ [bet]) (own k groups)
    else own k groups.
Proof.
  induction groups as [ | [k0 g0] rest IH ]; cbn [push own].
  - now destruct (String.eqb k' k).
  - destruct (String.eqb k0 k') eqn:E0; cbn [own].
    + apply String.eqb_eq in E0. subst k0.
      destruct (String.eqb k' k); reflexivity.
    + destruct (String.eqb k0 k) eqn:E1; [ | exact IH ].
      apply String.eqb_eq in E1. subst k0.
      rewrite String.eqb_sym, E0. reflexivity.
Qed.

Lemma own_app (k k' : string) (v : list PropBet) (groups : Groups) :
  own k (groups ++ [(k', v)])
  = match own k groups with
    | Some g => Some g
    | None => if String.eqb k' k then Some v else None
    end.
Proof.
  induction groups as [ | [k0 g0] rest IH ]; cbn [app own]; [ reflexivity | ].
  destruct (String.eqb k0 k); [ reflexivity | exact IH ].
Qed.

Lemma of_type_snoc (k : string) (l : list PropBet) (bet : PropBet) :
  of_type k (l ++ [bet])
  = of_type k l ++ (if String.eqb (betType bet) k then [bet] else []).
Proof.
  unfold of_type. rewrite filter_app. cbn [filter].
  now destruct (String.eqb (betType bet) k).
Qed.

Lemma group_of_snoc (k : string) (l : list PropBet) (bet : PropBet) :
  group_of k (l ++ [bet])
  = if String.eqb (betType bet) k
    then Some (of_type k l ++ [bet])
    else group_of k l.
Proof.
  unfold group_of. rewrite of_type_snoc.
  destruct (String.eqb (betType bet) k).
  - destruct (of_type k l); reflexivity.
  - now rewrite app_nil_r.
Qed.

(** One candidate more: the groups follow, unless the type is an inherited
    name met for the first time. *)
Lemma addToGroup_spec (groups : Groups) (seen : list PropBet) (bet : PropBet) :
  (forall k, own k groups = group_of k seen) ->
  (inherited (betType bet) = false ->
   exists groups', addToGroup groups bet = Return groups' /\
                   forall k, own k groups' = group_of k (seen ++ [bet])) /\
  (inherited (betType bet) = true -> plain_types seen ->
   throws (addToGroup groups bet)).
Proof.
  intro Inv. unfold addToGroup. split.
  - intro Hplain. pose proof (Inv (betType bet)) as Hb.
    destruct (own (betType bet) groups) as [g | ] eqn:Eo.
    + eexists. split; [ reflexivity | ]. intro k.
      rewrite own_push, group_of_snoc.
      destruct (String.eqb (betType bet) k) eqn:E; [ | apply Inv ].
      apply String.eqb_eq in E. subst k. rewrite Eo. cbn [option_map].
      unfold group_of in Hb. destruct (of_type (betType bet) seen); congruence.
    + rewrite Hplain. eexists. split; [ reflexivity | ]. intro k.
      rewrite own_push, own_app, group_of_snoc.
      destruct (String.eqb (betType bet) k) eqn:E.
      * apply String.eqb_eq in E. subst k. rewrite Eo. cbn [option_map].
        unfold group_of in Hb. destruct (of_type (betType bet) seen); [ reflexivity | discriminate ].
      * rewrite Inv. destruct (group_of k seen); reflexivity.
  - intros Hinh Hseen.
    assert (Hnone : of_type (betType bet) seen = []).
    { clear Inv. unfold of_type. unfold plain_types in Hseen.
      induction Hseen as [ | p ps Hp _ IH ]; cbn [filter]; [ reflexivity | ].
      destruct (String.eqb (betType p) (betType bet)) eqn:E; [ | exact IH ].
      apply String.eqb_eq in E. congruence. }
    pose proof (Inv (betType bet)) as Hb.
    unfold group_of in Hb. rewrite Hnone in Hb. rewrite Hb, Hinh.
    eexists. reflexivity.
Qed.

Lemma fold_throw (l : list PropBet) (m : string) :
  fold_left (fun acc bet => bind acc (fun groups => addToGroup groups bet))
            l (Throw m) = Throw m.
Proof. induction l as [ | x xs IH ]; cbn [fold_left bind]; auto. Qed.

Lemma fold_groups (l : list PropBet) :
  forall (groups : Groups) (seen : list PropBet),
    (forall k, own k groups = group_of k seen) ->
    plain_types l ->
    exists groups',
      fold_left (fun acc bet => bind acc (fun groups => addToGroup groups bet))
                l (Return groups) = Return groups' /\
      forall k, own k groups' = group_of k (seen ++ l).
Proof.
  induction l as [ | bet rest IH ]; intros groups seen Inv Hplain.
  - exists groups. split; [ reflexivity | ]. now rewrite app_nil_r.
  - inversion Hplain as [ | ? ? Hb Hrest ]; subst.
    destruct (addToGroup_spec groups seen bet Inv) as [Ok _].
    destruct (Ok Hb) as (g1 & E1 & Inv1).
    destruct (IH g1 (seen ++ [bet]) Inv1 Hrest) as (g2 & E2 & Inv2).
    exists g2. cbn [fold_left bind]. rewrite E1. split; [ exact E2 | ].
    intro k. rewrite Inv2, <- app_assoc. reflexivity.
Qed.

Lemma fold_groups_throws (l : list PropBet) :
  forall (groups : Groups) (seen : list PropBet),
    (forall k, own k groups = group_of k seen) ->
    plain_types seen ->
    Exists (fun p => inherited (betType p) = true) l ->
    throws (fold_left (fun acc bet => bind acc (fun groups => addToGroup groups bet))
                      l (Return groups)).
Proof.
  induction l as [ | bet rest IH ]; intros groups seen Inv Hseen Hex.
  - inversion Hex.
  - destruct (addToGroup_spec groups seen bet Inv) as [Ok Ko].
    cbn [fold_left bind].
    destruct (inherited (betType bet)) eqn:Hb.
    + destruct (Ko eq_refl Hseen) as [m ->]. exists m. apply fold_throw.
    + destruct (Ok eq_refl) as (g1 & -> & Inv1).
      apply (IH g1 (seen ++ [bet]) Inv1).
      * apply Forall_app. split; [ exact Hseen | now constructor ].
      * inversion Hex as [ ? ? H | ? ? H ]; subst; [ congruence | exact H ].
Qed.

Lemma descending_filter (f : PropBet -> bool) (l : list PropBet) :
  descending confidence l -> descending confidence (filter f l).
Proof.
  intro D. induction D as [ | x xs Dxs IH Hx ]; cbn [filter]; [ constructor | ].
  destruct (f x); [ | exact IH ].
  constructor; [ exact IH | ].
  rewrite Forall_forall in Hx |- *. intros y Hy.
  apply Hx. apply filter_In in Hy. tauto.
Qed.

(** X15.  For a list of candidates none of whose bet types is a property
    name inherited from Object.prototype, the grouping returns, for every
    bet type, exactly the candidates of that type in their original relative
    order, and no group for a type that does not occur.  Hence when the list
    is in descending order of confidence so is every group. *)
Theorem groupedPropBets_groups : forall propBets : list PropBet,
  plain_types propBets ->
  exists groups : Groups,
    groupedPropBets propBets = Return groups /\
    (forall k, own k groups = match of_type k propBets with
                              | [] => None
                              | g => Some g
                              end) /\
    (descending confidence propBets ->
     forall k g, own k groups = Some g -> descending confidence g).
Proof.
  intros l Hplain.
  destruct (fold_groups l [] [] (fun k => eq_refl) Hplain) as (g & E & Inv).
  exists g. split; [ exact E | ]. cbn [app] in Inv.
  split; [ exact Inv | ].
  intros D k grp Hk. rewrite Inv in Hk. unfold group_of in Hk.
  destruct (of_type k l) as [ | p ps ] eqn:Eo; [ discriminate Hk | ].
  injection Hk as <-. rewrite <- Eo. now apply descending_filter.
Qed.

Lemma groupedPropBets_groups_witness :
  let propBets := [candidate "Player 2" (lit 82 100);
                   candidate "Player 1" (lit 70 100);
                   candidate "Player 3" (lit 70 100)] in
  plain_types propBets /\
  exists groups : Groups,
    groupedPropBets propBets = Return groups /\
    (forall k, own k groups = match of_type k propBets with
                              | [] => None
                              | g => Some g
                              end) /\
    (descending confidence propBets ->
     forall k g, own k groups = Some g -> descending confidence g).
Proof.
  intro propBets.
  assert (H : plain_types propBets) by (repeat constructor).
  split; [ exact H | exact (groupedPropBets_groups propBets H) ].
Defined.

(** X16.  The grouping throws exactly when some candidate's bet type is a
    property name inherited from Object.prototype (constructor, toString,
    __proto__, ...): such a name reads as an existing, truthy property of the
    empty groups object, on which push cannot be called. *)
Theorem groupedPropBets_throws_iff : forall propBets : list PropBet,
  throws (groupedPropBets propBets) <->
  Exists (fun p => inherited (betType p) = true) propBets.
Proof.
  intro l. split.
  - intros [m Hm].
    destruct (Exists_dec (fun p => inherited (betType p) = true) l) as [ | Hno ];
      [ intro p; destruct (inherited (betType p)); [ now left | now right ]
      | assumption | exfalso ].
    assert (Hplain : plain_types l).
    { unfold plain_types. rewrite Forall_forall. intros p Hp.
      destruct (inherited (betType p)) eqn:E; [ | reflexivity ].
      exfalso. apply Hno. apply Exists_exists. eauto. }
    destruct (fold_groups l [] [] (fun k => eq_refl) Hplain) as (g & E & _).
    assert (E' : groupedPropBets l = Return g) by exact E. congruence.
  - intro Hex. apply (fold_groups_throws l [] []); auto. constructor.
Qed.

End Grouping.

(* ------------------------------------------------------------------ *)
(** ** The generated list on display *)

Section GeneratedDisplay.

Import GameService MockProps PropBetsList.



(** X18.  The colour of a finite confidence is decided by three inclusive
    thresholds, the binary64 numbers 0.75, 0.6 and 0.5 of the source:
    green-600 exactly from 0.75 up, green-500 exactly on [0.6, 0.75),
    blue-500 exactly on [0.5, 0.6), and gray-500 exactly below 0.5.  The
    numbers 0.75 and 0.5 are 3/4 and 1/2; the number 0.6 lies below 6/10,
    within 10^-16 of it, and both it and the confidence 1 - 0.4 are
    coloured green-500. *)
Theorem getConfidenceColor_buckets : forall c : Q,
  let t75 := valueOf (double 0.75%float) in
  let t6 := valueOf (double 0.6%float) in
  let t5 := valueOf (double 0.5%float) in
  (getConfidenceColor (Fin c) = "text-green-600" <-> t75 <= c) /\
  (getConfidenceColor (Fin c) = "text-green-500" <-> t6 <= c < t75) /\
  (getConfidenceColor (Fin c) = "text-blue-500" <-> t5 <= c < t6) /\
  (getConfidenceColor (Fin c) = "text-gray-500" <-> c < t5) /\
  (t75 == 3 # 4 /\ t5 == 1 # 2 /\
   t6 < 6 # 10 /\ (6 # 10) - (1 # 10000000000000000) < t6) /\
  getConfidenceColor (double 0.6%float) = "text-green-500" /\
  getConfidenceColor (sub (Fin 1) (double 0.4%float)) = "text-green-500".
Proof.
  intros c t75 t6 t5.
  assert (E75 : double 0.75%float = Fin t75) by (vm_compute; reflexivity).
  assert (E6 : double 0.6%float = Fin t6) by (vm_compute; reflexivity).
  assert (E5 : double 0.5%float = Fin t5) by (vm_compute; reflexivity).
  assert (V75 : t75 == 3 # 4) by reflexivity.
  assert (V5 : t5 == 1 # 2) by reflexivity.
  assert (V6 : t6 < 6 # 10) by reflexivity.
  assert (W6 : (6 # 10) - (1 # 10000000000000000) < t6) by reflexivity.
  split; [ | split; [ | split; [ | split; [ | split; [ | split ] ] ] ] ].
  5: now repeat split.
  5, 6: vm_compute; reflexivity.
  all: unfold getConfidenceColor, ge; rewrite E75, E6, E5.
  all: clearbody t75 t6 t5.
  all: split_le t75 c; [ | split_le t6 c; [ | split_le t5 c ] ].
  all: repeat split; intros; try discriminate; try reflexivity; lra.
Qed.

End GeneratedDisplay.

(* ------------------------------------------------------------------ *)
(** ** The odds comparison on display *)

Section Display.

Import OddsService SimulationService.

Lemma toFixedValue_3_error (x : Q) :
  exists (y : Q) (k : Z),
    toFixedValue 3 (Fin x) = Fin y /\ y == inject_Z k * (1 # 1000) /\
    - (1 # 2000) <= y - x /\ y - x <= 1 # 2000.
Proof.
  unfold toFixedValue. change (inject_Z (10 ^ Z.of_nat 3)) with 1000.
  assert (D : forall y : Q, y / 1000 == y * (1 # 1000)) by (intro; reflexivity).
  destruct (Qle_bool 0 x) eqn:B.
  - eexists. exists (Qfloor (x * 1000 + (1 # 2))).
    split; [ reflexivity | ]. split; [ apply D | ].
    pose proof (Qfloor_le (x * 1000 + (1 # 2))) as L.
    pose proof (Qlt_floor (x * 1000 + (1 # 2))) as U.
    rewrite inject_Z_plus in U. change (inject_Z 1) with 1 in U.
    set (k := inject_Z (Qfloor (x * 1000 + (1 # 2)))) in *.
    rewrite !D. split; lra.
  - eexists. exists (- Qfloor (- x * 1000 + (1 # 2)))%Z.
    split; [ reflexivity | ].
    split; [ rewrite inject_Z_opp, D; ring | ].
    pose proof (Qfloor_le (- x * 1000 + (1 # 2))) as L.
    pose proof (Qlt_floor (- x * 1000 + (1 # 2))) as U.
    rewrite inject_Z_plus in U. change (inject_Z 1) with 1 in U.
    set (k := inject_Z (Qfloor (- x * 1000 + (1 # 2)))) in *.
    rewrite !D. split; lra.
Qed.

Lemma display_oddsToProb (o : Q) :
  exists p y : Q,
    OddsService.oddsToProb (Fin o) = Fin p /\
    OddsComparison.oddsToProb (Fin o) = Fin y /\
    - (1 # 2000) <= y - p /\ y - p <= 1 # 2000.
Proof.
  destruct (oddsToProb_same (Fin o)) as [E _].
  destruct (americanToImpliedProbability_finite o) as [p Hp].
  rewrite <- E in Hp.
  destruct (toFixedValue_3_error p) as (y & _ & Hy & _ & L & U).
  exists p, y. split; [ exact Hp | ]. split; [ | split; assumption ].
  unfold OddsComparison.oddsToProb. unfold OddsService.oddsToProb in Hp.
  destruct (gt (Fin o) (Fin 0)); rewrite Hp; exact Hy.
Qed.

(** The difference on display, a number with three decimals, and the edge
    of the services. *)
Lemma display_difference (m s : Q) :
  exists (d e : Q) (k : Z),
    OddsComparison.difference (Fin m) (Fin s) = Fin d /\
    _calculateEdge (Fin m) (Fin s) = Fin e /\
    d == inject_Z k * (1 # 1000) /\
    - (3 # 2000) <= d - e /\ d - e <= 3 # 2000.
Proof.
  destruct (display_oddsToProb m) as (pm & ym & Hpm & Hym & Lm & Um).
  destruct (display_oddsToProb s) as (ps & ys & Hps & Hys & Ls & Us).
  destruct (toFixedValue_3_error (ys + - ym)) as (d & k & Hd & Hk & Ld & Ud).
  exists d, (ps + - pm), k. split; [ | split; [ | split ] ].
  - unfold OddsComparison.difference. rewrite Hym, Hys. exact Hd.
  - unfold _calculateEdge.
    destruct (oddsToProb_same (Fin m)) as [E1 E2]. rewrite E2, <- E1, Hpm.
    destruct (oddsToProb_same (Fin s)) as [E3 E4]. rewrite E4, <- E3, Hps.
    reflexivity.
  - exact Hk.
  - split; lra.
Qed.

Lemma getValueIndicator_text (m s : num) :
  OddsComparison.text (OddsComparison.getValueIndicator m s)
  = displayText (determineValueType (OddsComparison.difference m s)).
Proof.
  unfold OddsComparison.getValueIndicator, determineValueType.
  destruct (gt (OddsComparison.difference m s) (double 0.05%float)); [ reflexivity | ].
  destruct (gt (OddsComparison.difference m s) (double 0.02%float)); [ reflexivity | ].
  destruct (lt (OddsComparison.difference m s) (double (-0.05)%float)); [ reflexivity | ].
  destruct (lt (OddsComparison.difference m s) (double (-0.02)%float)); reflexivity.
Qed.

(** A number with three decimals is on one side of a number with three
    decimals, or at least 1/1000 away on the other. *)
Lemma three_decimals_gap (d : Q) (k a : Z) :
  d == inject_Z k * (1 # 1000) ->
  d <= inject_Z a * (1 # 1000) \/ inject_Z (a + 1) * (1 # 1000) <= d.
Proof.
  intro E. destruct (Z_le_gt_dec k a) as [H | H]; [ left | right ].
  - rewrite Zle_Qle in H. lra.
  - assert (H' : (a + 1 <= k)%Z) by lia. rewrite Zle_Qle in H'. lra.
Qed.

Lemma determineValueType_near (d e : Q) (k : Z) :
  d == inject_Z k * (1 # 1000) ->
  - (3 # 2000) <= d - e -> d - e <= 3 # 2000 ->
  (e < (5 # 100) - (3 # 2000) \/ (5 # 100) + (3 # 2000) < e) ->
  (e < (2 # 100) - (3 # 2000) \/ (2 # 100) + (3 # 2000) < e) ->
  (e < - (5 # 100) - (3 # 2000) \/ - (5 # 100) + (3 # 2000) < e) ->
  (e < - (2 # 100) - (3 # 2000) \/ - (2 # 100) + (3 # 2000) < e) ->
  determineValueType (Fin d) = determineValueType (Fin e).
Proof.
  intros K L U H1 H2 H3 H4. unfold determineValueType.
  destruct double_thresholds as (-> & -> & -> & ->).
  destruct thresholds_near as (A5 & B5 & A2 & B2).
  pose proof (three_decimals_gap d k 50 K) as G1.
  pose proof (three_decimals_gap d k 20 K) as G2.
  pose proof (three_decimals_gap d k (-51) K) as G3.
  pose proof (three_decimals_gap d k (-21) K) as G4.
  change (inject_Z 50 * (1 # 1000)) with (50 # 1000) in G1.
  change (inject_Z (50 + 1) * (1 # 1000)) with (51 # 1000) in G1.
  change (inject_Z 20 * (1 # 1000)) with (20 # 1000) in G2.
  change (inject_Z (20 + 1) * (1 # 1000)) with (21 # 1000) in G2.
  change (inject_Z (-51) * (1 # 1000)) with (-51 # 1000) in G3.
  change (inject_Z (-51 + 1) * (1 # 1000)) with (-50 # 1000) in G3.
  change (inject_Z (-21) * (1 # 1000)) with (-21 # 1000) in G4.
  change (inject_Z (-21 + 1) * (1 # 1000)) with (-20 # 1000) in G4.
  clear K.
  split_gt d t005; [ | split_gt d t002;
    [ | split_lt d (- t005); [ | split_lt d (- t002) ] ] ];
  (split_gt e t005; [ | split_gt e t002;
    [ | split_lt e (- t005); [ | split_lt e (- t002) ] ] ]);
  try reflexivity; exfalso;
  destruct G1, G2, G3, G4, H1, H2, H3, H4; lra.
Qed.

(** X19.  For finite prices, the difference that the odds comparison
    classifies is within 0.0015 of the edge that the services compute, and
    the text shown is the rating of the odds service applied to that rounded
    difference. *)
Theorem display_difference_near_edge : forall m s : Q,
  exists d e : Q,
    OddsComparison.difference (Fin m) (Fin s) = Fin d /\
    _calculateEdge (Fin m) (Fin s) = Fin e /\
    Qabs (d - e) <= 3 # 2000 /\
    OddsComparison.text (OddsComparison.getValueIndicator (Fin m) (Fin s))
    = displayText (determineValueType (Fin d)).
Proof.
  intros m s. destruct (display_difference m s) as (d & e & _ & Hd & He & _ & L & U).
  exists d, e. split; [ exact Hd | ]. split; [ exact He | ].
  split; [ apply Qabs_Qle_condition; split; assumption | ].
  rewrite getValueIndicator_text, Hd. reflexivity.
Qed.

(** X20.  For finite prices whose edge is more than 0.0015 away from each
    of the four thresholds 0.05, 0.02, -0.05 and -0.02, the text shown by
    the odds comparison is the rating that the odds service gives to the
    edge.  Nearer to a threshold the two can differ: with the market at -270
    and the simulation at -300 the service rates value and the comparison
    shows Fair Value. *)
Theorem display_agrees_away_from_thresholds :
  (forall m s e : Q,
     _calculateEdge (Fin m) (Fin s) = Fin e ->
     3 # 2000 < Qabs (e - (5 # 100)) ->
     3 # 2000 < Qabs (e - (2 # 100)) ->
     3 # 2000 < Qabs (e + (5 # 100)) ->
     3 # 2000 < Qabs (e + (2 # 100)) ->
     OddsComparison.text (OddsComparison.getValueIndicator (Fin m) (Fin s))
     = displayText (determineValueType (Fin e))) /\
  determineValueType (_calculateEdge (Fin (-270)) (Fin (-300))) = "value" /\
  OddsComparison.text (OddsComparison.getValueIndicator (Fin (-270)) (Fin (-300)))
  = "Fair Value".
Proof.
  split; [ | split; vm_compute; reflexivity ].
  intros m s e He H1 H2 H3 H4.
  destruct (display_difference m s) as (d & e' & k & Hd & He' & Hk & L & U).
  rewrite He in He'. injection He' as <-.
  rewrite getValueIndicator_text, Hd. f_equal.
  assert (A : forall t : Q, 3 # 2000 < Qabs (e - t) ->
                            e < t - (3 # 2000) \/ t + (3 # 2000) < e).
  { intros t Ht. destruct (Qlt_le_dec e t) as [K | K].
    - left. rewrite Qabs_neg in Ht by lra. lra.
    - right. rewrite Qabs_pos in Ht by lra. lra. }
  apply (determineValueType_near d e k); try assumption.
  - apply (A (5 # 100) H1).
  - apply (A (2 # 100) H2).
  - destruct (A (- (5 # 100))) as [K | K]; [ | lra | lra ].
    setoid_replace (e - - (5 # 100)) with (e + (5 # 100)) by ring. exact H3.
  - destruct (A (- (2 # 100))) as [K | K]; [ | lra | lra ].
    setoid_replace (e - - (2 # 100)) with (e + (2 # 100)) by ring. exact H4.
Qed.

Lemma display_agrees_away_from_thresholds_witness :
  exists e : Q,
    _calculateEdge (Fin (-150)) (Fin (-210)) = Fin e /\
    3 # 2000 < Qabs (e - (5 # 100)) /\
    3 # 2000 < Qabs (e - (2 # 100)) /\
    3 # 2000 < Qabs (e + (5 # 100)) /\
    3 # 2000 < Qabs (e + (2 # 100)) /\
    OddsComparison.text (OddsComparison.getValueIndicator (Fin (-150)) (Fin (-210)))
    = displayText (determineValueType (Fin e)).
Proof.
  destruct display_agrees_away_from_thresholds as [K _].
  eexists.
  assert (He : _calculateEdge (Fin (-150)) (Fin (-210)) = Fin _) by reflexivity.
  split; [ exact He | ].
  assert (H1 : 3 # 2000 < Qabs (valueOf (_calculateEdge (Fin (-150)) (Fin (-210))) - (5 # 100)))
    by reflexivity.
  assert (H2 : 3 # 2000 < Qabs (valueOf (_calculateEdge (Fin (-150)) (Fin (-210))) - (2 # 100)))
    by reflexivity.
  assert (H3 : 3 # 2000 < Qabs (valueOf (_calculateEdge (Fin (-150)) (Fin (-210))) + (5 # 100)))
    by reflexivity.
  assert (H4 : 3 # 2000 < Qabs (valueOf (_calculateEdge (Fin (-150)) (Fin (-210))) + (2 # 100)))
    by reflexivity.
  split; [ exact H1 | ]. split; [ exact H2 | ].
  split; [ exact H3 | ]. split; [ exact H4 | ].
  exact (K (-150) (-210) _ He H1 H2 H3 H4).
Defined.

End Display.

(* ------------------------------------------------------------------ *)
(** ** Order and symmetry of the implied probability *)

Section ProbabilityOrder.

Import OddsUtils SimulationService.

(** At the exact values the implied probability never increases with the
    price, among the prices of magnitude 100 or more. *)
Lemma americanToImpliedProbability_antitone : forall o1 o2 : Q,
  100 <= Qabs o1 -> 100 <= Qabs o2 -> o1 <= o2 ->
  exists p1 p2 : Q,
    americanToImpliedProbability (Fin o1) = Fin p1 /\
    americanToImpliedProbability (Fin o2) = Fin p2 /\
    p2 <= p1.
Proof.
  intros o1 o2 H1 H2 Hle.
  assert (S1 : o1 <= -100 \/ 100 <= o1).
  { destruct (Qlt_le_dec o1 0) as [K | K];
      [ left; rewrite Qabs_neg in H1 by lra | right; rewrite Qabs_pos in H1 by lra ];
      lra. }
  assert (S2 : o2 <= -100 \/ 100 <= o2).
  { destruct (Qlt_le_dec o2 0) as [K | K];
      [ left; rewrite Qabs_neg in H2 by lra | right; rewrite Qabs_pos in H2 by lra ];
      lra. }
  destruct S1 as [N1 | P1]; destruct S2 as [N2 | P2]; try lra.
  - exists (Qabs o1 / (Qabs o1 + 100)), (Qabs o2 / (Qabs o2 + 100)).
    split; [ apply americanToImpliedProbability_nonpos; lra | ].
    split; [ apply americanToImpliedProbability_nonpos; lra | ].
    assert (E1 : Qabs o1 == - o1) by (apply Qabs_neg; lra).
    assert (E2 : Qabs o2 == - o2) by (apply Qabs_neg; lra).
    set (a := Qabs o1) in *. set (b := Qabs o2) in *. clearbody a b.
    apply Qle_shift_div_r; [ lra | ].
    assert (E : a / (a + 100) * (b + 100) == (a * (b + 100)) / (a + 100))
      by (field; lra).
    rewrite E. apply Qle_shift_div_l; [ lra | ]. nra.
  - destruct (americanToImpliedProbability_bounds o1) as (p1 & E1 & _ & _ & F1 & _);
      [ lra | ].
    destruct (americanToImpliedProbability_bounds o2) as (p2 & E2 & _ & _ & _ & U2);
      [ lra | ].
    exists p1, p2. split; [ exact E1 | ]. split; [ exact E2 | ].
    specialize (F1 N1). specialize (U2 P2). lra.
  - exists (100 / (o1 + 100)), (100 / (o2 + 100)).
    split; [ apply americanToImpliedProbability_pos; lra | ].
    split; [ apply americanToImpliedProbability_pos; lra | ].
    apply Qle_shift_div_r; [ lra | ].
    assert (E : 100 / (o1 + 100) * (o2 + 100) == (100 * (o2 + 100)) / (o1 + 100))
      by (field; lra).
    rewrite E. apply Qle_shift_div_l; [ lra | ]. nra.
Qed.

(** X21.  Among the integer prices from 100 to 10^9 in magnitude the
    implied probability never increases with the price: if o1 <= o2 then
    the probability of o2 is at most that of o1 (so -200 implies no less
    than -150, which implies no less than +150). *)
Theorem impliedProbability_antitone : forall o1 o2 : Z,
  (100 <= Z.abs o1 <= 1000000000)%Z -> (100 <= Z.abs o2 <= 1000000000)%Z ->
  (o1 <= o2)%Z ->
  exists p1 p2 : Q,
    americanToImpliedProbability (Fin (inject_Z o1)) = Fin p1 /\
    americanToImpliedProbability (Fin (inject_Z o2)) = Fin p2 /\
    p2 <= p1.
Proof.
  intros o1 o2 H1 H2 Hle.
  destruct (integer_price o1 H1) as [S1 _].
  destruct (integer_price o2 H2) as [S2 _].
  rewrite Zle_Qle in Hle.
  apply americanToImpliedProbability_antitone; [ | | exact Hle ].
  - destruct S1; [ rewrite Qabs_neg by lra | rewrite Qabs_pos by lra ]; lra.
  - destruct S2; [ rewrite Qabs_neg by lra | rewrite Qabs_pos by lra ]; lra.
Qed.

Lemma impliedProbability_antitone_witness :
  (100 <= Z.abs (-200) <= 1000000000)%Z /\ (100 <= Z.abs 150 <= 1000000000)%Z /\
  (-200 <= 150)%Z /\
  exists p1 p2 : Q,
    americanToImpliedProbability (Fin (inject_Z (-200))) = Fin p1 /\
    americanToImpliedProbability (Fin (inject_Z 150)) = Fin p2 /\
    p2 <= p1.
Proof.
  assert (H1 : (100 <= Z.abs (-200) <= 1000000000)%Z) by (cbn; lia).
  assert (H2 : (100 <= Z.abs 150 <= 1000000000)%Z) by (cbn; lia).
  assert (H3 : (-200 <= 150)%Z) by lia.
  split; [ exact H1 | split; [ exact H2 | split; [ exact H3 | ] ] ].
  exact (impliedProbability_antitone (-200)%Z 150%Z H1 H2 H3).
Defined.

(** X23.  For integer prices from 100 to 10^9 in magnitude on both sides
    the edge is a finite number strictly between -1 and 1. *)
Theorem edge_within_unit : forall m s : Z,
  (100 <= Z.abs m <= 1000000000)%Z -> (100 <= Z.abs s <= 1000000000)%Z ->
  exists e : Q,
    _calculateEdge (Fin (inject_Z m)) (Fin (inject_Z s)) = Fin e /\
    -1 < e /\ e < 1.
Proof.
  intros m s Hm Hs.
  destruct (integer_price m Hm) as [_ Zm].
  destruct (integer_price s Hs) as [_ Zs].
  destruct (americanToImpliedProbability_bounds _ Zm) as (pm & Em & Lm & Um & _).
  destruct (americanToImpliedProbability_bounds _ Zs) as (ps & Es & Ls & Us & _).
  exists (ps + - pm). split; [ | split; lra ].
  unfold _calculateEdge.
  destruct (oddsToProb_same (Fin (inject_Z m))) as [_ ->].
  destruct (oddsToProb_same (Fin (inject_Z s))) as [_ ->].
  rewrite Em, Es. reflexivity.
Qed.

Lemma edge_within_unit_witness :
  (100 <= Z.abs (-150) <= 1000000000)%Z /\ (100 <= Z.abs (-210) <= 1000000000)%Z /\
  exists e : Q,
    _calculateEdge (Fin (inject_Z (-150))) (Fin (inject_Z (-210))) = Fin e /\
    -1 < e /\ e < 1.
Proof.
  assert (Hm : (100 <= Z.abs (-150) <= 1000000000)%Z) by (cbn; lia).
  assert (Hs : (100 <= Z.abs (-210) <= 1000000000)%Z) by (cbn; lia).
  split; [ exact Hm | split; [ exact Hs | ] ].
  exact (edge_within_unit (-150)%Z (-210)%Z Hm Hs).
Defined.

End ProbabilityOrder.
